(** * An LRU cache with lazy promotion and batched eviction

    Shallow embedding of [src/cxx/lrucache/lru.hh] (class [lru_cache]).

    Nodes live in a pool ([std::vector<node_type>]); a node pointer is
    modelled as the index of the node in the pool.  The two intrusive
    lists and the intrusive hash index hold node pointers, so they are
    lists of pool indices; the free stack is a list whose head is the top.

    Timestamps are [uint64_t]: they are integers reduced modulo [2^64].
    Sizes ([size_t]) count pool nodes and are natural numbers; the
    products of the constructor are followed for capacities below
    [2^53], where they neither wrap nor round (see [lru_cache_new]).

    The hash index is kept as the set of linked nodes and is searched
    by key: buckets and the hash function only decide where a node is
    chained, not whether it is found.

    Undefined behaviour of the C++ code (taking the top of an empty
    stack, stepping a list iterator before the first element) is the
    result [None]. *)

From stdpp Require Import base numbers option list.
From stdpp Require Import sorting.

(** ** Machine integers *)

Definition wrap64 (x : Z) : Z := x `mod` 2 ^ 64.

Arguments wrap64 : simpl never.

(** [pop_back l] splits off the last element of [l]: this is what
    [--iter] reads when [iter] stands just after that element. *)
Definition pop_back {A} (l : list A) : option (list A * A) :=
  match reverse l with
  | [] => None
  | x :: r => Some (reverse r, x)
  end.

Section lru_cache.
Context {Key Value : Type} `{!EqDecision Key}.

(** [struct node_type], without the two hooks: list and index
    membership are kept in the cache record. *)
Record node_type := Node {
  key : Key;
  value : Value;
  access_time : Z;
  promotion_time : Z;
  evictable : bool
}.

(** A node pointer is the position of the node in the pool. *)
Abbreviation node_pointer_type := nat (only parsing).

(** The data members of [lru_cache]. *)
Record lru_cache := Cache {
  _max_size : nat;
  _soft_promotion : nat;
  _batch_evict_size : nat;
  _node_pool : list node_type;
  _free_nodes : list node_pointer_type;   (* head = top of the stack *)
  _lru : list node_pointer_type;          (* head = front = MRU end *)
  _index : list node_pointer_type;        (* the nodes linked in the hash set *)
  _current_time : Z;
  _unevicted_list : list node_pointer_type;
  _nr_unevicted : nat
}.

(** Field updates. *)
Definition set_node_pool (p : list node_type) (c : lru_cache) : lru_cache :=
  Cache (_max_size c) (_soft_promotion c) (_batch_evict_size c) p
    (_free_nodes c) (_lru c) (_index c) (_current_time c)
    (_unevicted_list c) (_nr_unevicted c).
Definition set_free_nodes (f : list node_pointer_type) (c : lru_cache) : lru_cache :=
  Cache (_max_size c) (_soft_promotion c) (_batch_evict_size c) (_node_pool c)
    f (_lru c) (_index c) (_current_time c)
    (_unevicted_list c) (_nr_unevicted c).
Definition set_lru (l : list node_pointer_type) (c : lru_cache) : lru_cache :=
  Cache (_max_size c) (_soft_promotion c) (_batch_evict_size c) (_node_pool c)
    (_free_nodes c) l (_index c) (_current_time c)
    (_unevicted_list c) (_nr_unevicted c).
Definition set_index (i : list node_pointer_type) (c : lru_cache) : lru_cache :=
  Cache (_max_size c) (_soft_promotion c) (_batch_evict_size c) (_node_pool c)
    (_free_nodes c) (_lru c) i (_current_time c)
    (_unevicted_list c) (_nr_unevicted c).
Definition set_current_time (t : Z) (c : lru_cache) : lru_cache :=
  Cache (_max_size c) (_soft_promotion c) (_batch_evict_size c) (_node_pool c)
    (_free_nodes c) (_lru c) (_index c) t
    (_unevicted_list c) (_nr_unevicted c).
Definition set_unevicted_list (l : list node_pointer_type) (c : lru_cache) : lru_cache :=
  Cache (_max_size c) (_soft_promotion c) (_batch_evict_size c) (_node_pool c)
    (_free_nodes c) (_lru c) (_index c) (_current_time c)
    l (_nr_unevicted c).
Definition set_nr_unevicted (n : nat) (c : lru_cache) : lru_cache :=
  Cache (_max_size c) (_soft_promotion c) (_batch_evict_size c) (_node_pool c)
    (_free_nodes c) (_lru c) (_index c) (_current_time c)
    (_unevicted_list c) n.

(** [node->field = x]: a write through a node pointer, which always
    points into the pool. *)
Definition update_node (f : node_type → node_type) (n : node_pointer_type)
    (c : lru_cache) : lru_cache :=
  set_node_pool (alter f n (_node_pool c)) c.

Definition with_key (k : Key) (nd : node_type) : node_type :=
  Node k (value nd) (access_time nd) (promotion_time nd) (evictable nd).
Definition with_value (v : Value) (nd : node_type) : node_type :=
  Node (key nd) v (access_time nd) (promotion_time nd) (evictable nd).
Definition with_access_time (t : Z) (nd : node_type) : node_type :=
  Node (key nd) (value nd) t (promotion_time nd) (evictable nd).
Definition with_promotion_time (t : Z) (nd : node_type) : node_type :=
  Node (key nd) (value nd) (access_time nd) t (evictable nd).
Definition with_evictable (e : bool) (nd : node_type) : node_type :=
  Node (key nd) (value nd) (access_time nd) (promotion_time nd) e.

(** ** Private member functions *)

(** [allocate_node]: [top()] then [pop()]; both are undefined on an
    empty stack. *)
Definition allocate_node (c : lru_cache) : option (node_pointer_type * lru_cache) :=
  match _free_nodes c with
  | [] => None
  | node :: rest => Some (node, set_free_nodes rest c)
  end.

Definition free_node (node : node_pointer_type) (c : lru_cache) : lru_cache :=
  set_free_nodes (node :: _free_nodes c) c.

(** [return ++_current_time;] *)
Definition next_timestamp (c : lru_cache) : Z * lru_cache :=
  let t := wrap64 (_current_time c + 1) in (t, set_current_time t c).

(** Does the node behind pointer [n] carry key [k]? *)
Definition has_key (c : lru_cache) (k : Key) (n : node_pointer_type) : bool :=
  match _node_pool c !! n with
  | Some nd => bool_decide (key nd = k)
  | None => false
  end.

(** [_index.find(key)]: the linked node whose key is [key], if any. *)
Definition find_in_index (k : Key) (c : lru_cache) : option node_pointer_type :=
  List.find (has_key c k) (_index c).

(** [htable_hook.unlink()] and [list_hook.unlink()] of an auto-unlink
    hook: the node leaves the container it is linked in, and nothing
    happens when it is linked in none. *)
Definition htable_unlink (n : node_pointer_type) (c : lru_cache) : lru_cache :=
  set_index (filter (λ m, m ≠ n) (_index c)) c.

Definition list_unlink (n : node_pointer_type) (c : lru_cache) : lru_cache :=
  set_unevicted_list (filter (λ m, m ≠ n) (_unevicted_list c))
    (set_lru (filter (λ m, m ≠ n) (_lru c)) c).

(** The test of [lru_touch], on the node after its access time was set:
    [access_time - promotion_time] is an unsigned 64-bit difference. *)
Definition promotion_due (c : lru_cache) (nd : node_type) : bool :=
  bool_decide (Z.of_nat (_soft_promotion c) < wrap64 (access_time nd - promotion_time nd))%Z
  && evictable nd.

Definition lru_touch (node : node_pointer_type) (c : lru_cache) : lru_cache :=
  let '(t, c) := next_timestamp c in
  let c := update_node (with_access_time t) node c in
  match _node_pool c !! node with
  | Some nd =>
      if promotion_due c nd then
        let c := list_unlink node c in
        let c := set_lru (node :: _lru c) c in
        update_node (with_promotion_time (access_time nd)) node c
      else c
  | None => c
  end.

(** The loop of [make_room_for_insert].  [iter] is the part of [_lru]
    in front of the iterator; [--iter] moves its last element behind
    the iterator, and is undefined when there is none. *)
Fixpoint evict_loop (i : nat) (iter : list node_pointer_type) (c : lru_cache)
    : option (list node_pointer_type * lru_cache) :=
  match i with
  | 0 => Some (iter, c)
  | S i' =>
      '(iter', n) ← pop_back iter;
      evict_loop i' iter' (free_node n (htable_unlink n c))
  end.

(** The guard of [make_room_for_insert]. *)
Definition eviction_due (c : lru_cache) : bool :=
  bool_decide (length (_free_nodes c) + _nr_unevicted c < _max_size c).

Definition make_room_for_insert (c : lru_cache) : option lru_cache :=
  if eviction_due c then
    '(iter, c') ← evict_loop (_batch_evict_size c) (_lru c) c;
    (* _lru.erase(iter, _lru.end()) *)
    Some (set_lru iter c')
  else Some c.

(** [insert_check]: room is made first, the index is probed after. *)
Definition insert_check (k : Key) (c : lru_cache)
    : option (option node_pointer_type * lru_cache) :=
  c' ← make_room_for_insert c;
  Some (find_in_index k c', c').

Definition do_insert (k : Key) (v : Value) (e : bool) (c : lru_cache)
    : option lru_cache :=
  '(new_node, c) ← allocate_node c;
  let c := update_node (with_key k) new_node c in
  let c := update_node (with_value v) new_node c in
  let c := update_node (with_evictable e) new_node c in
  let '(t, c) := next_timestamp c in
  let c := update_node (with_access_time t) new_node c in
  let c := update_node (with_promotion_time t) new_node c in
  let c := set_index (new_node :: _index c) c in
  Some (if e then set_lru (new_node :: _lru c) c
        else set_unevicted_list (new_node :: _unevicted_list c) c).

(** ** Public member functions *)

(** The constructor, for capacities below [2^53].  [capacity * 0.5] is
    a [double] product truncated to [size_t]: below [2^53] the
    conversion of [capacity] to [double] is exact and the result is the
    half of [capacity] rounded down.  That half is at most [capacity],
    so the unsigned difference [_max_size - _soft_promotion] does not
    wrap.  The pool size [_max_size * 2] and the bucket count
    [_max_size * 4] are [size_t] products: below [2^53] (indeed below
    [2^62]) neither wraps.  For larger capacities the code rounds the
    half and, from [2^63] on, builds a pool of [2 * capacity - 2^64]
    nodes, fewer than [capacity]; this definition does not follow it
    there, and the theorems that depend on the size of the pool take
    the bound [capacity < 2^53] as a hypothesis.
    The free stack is filled from the back of the pool to its front, so
    the front node is on top.  The pool nodes are value-initialised:
    [key0] and [value0] stand for [Key()] and [Value()], the timestamps
    are zero and the flag is [false]. *)
Definition lru_cache_new (key0 : Key) (value0 : Value) (capacity : nat)
    : lru_cache :=
  let soft := capacity / 2 in
  let init := Node key0 value0 0 0 false in
  {| _max_size := capacity;
     _soft_promotion := soft;
     _batch_evict_size := 3 `min` (capacity - soft);
     _node_pool := replicate (capacity * 2) init;
     _free_nodes := seq 0 (capacity * 2);
     _lru := [];
     _index := [];
     _current_time := 0;
     _unevicted_list := [];
     _nr_unevicted := 0 |}.

Definition get (k : Key) (c : lru_cache) : option Value * lru_cache :=
  match find_in_index k c with
  | Some node =>
      let c := lru_touch node c in
      (value <$> _node_pool c !! node, c)
  | None => (None, c)
  end.

Definition insert_on_missing (k : Key) (v : Value) (c : lru_cache)
    : option lru_cache :=
  '(node, c) ← insert_check k c;
  match node with
  | None => do_insert k v true c
  | Some _ => Some c
  end.

Definition insert (k : Key) (v : Value) (e : bool) (c : lru_cache)
    : option lru_cache :=
  '(node, c) ← insert_check k c;
  match node with
  | Some node => Some (lru_touch node (update_node (with_value v) node c))
  | None =>
      c ← do_insert k v e c;
      Some (if e then c else set_nr_unevicted (S (_nr_unevicted c)) c)
  end.

(** ** Sequences of public operations *)

Inductive op :=
  | Get (k : Key)
  | InsertOnMissing (k : Key) (v : Value)
  | Insert (k : Key) (v : Value) (e : bool).

Definition exec (o : op) (c : lru_cache) : option lru_cache :=
  match o with
  | Get k => Some (get k c).2
  | InsertOnMissing k v => insert_on_missing k v c
  | Insert k v e => insert k v e c
  end.

Fixpoint run (ops : list op) (c : lru_cache) : option lru_cache :=
  match ops with
  | [] => Some c
  | o :: ops' => c' ← exec o c; run ops' c'
  end.

(** A state is reachable when a sequence of public operations, none of
    them undefined, leads to it from a freshly constructed cache.  The
    constructor needs a positive capacity ([_node_pool.back()]). *)
Definition reachable (c : lru_cache) : Prop :=
  ∃ key0 value0 capacity ops,
    0 < capacity ∧ run ops (lru_cache_new key0 value0 capacity) = Some c.

(** ** Specification vocabulary *)

(** The state left by the eviction loop after it has visited the nodes
    [ev] (in list order; the loop visits them from the last to the
    first): they are unlinked from the index and lie on top of the
    free stack. *)
Definition evicted_state (ev : list node_pointer_type) (c : lru_cache)
    : lru_cache :=
  set_free_nodes (ev ++ _free_nodes c)
    (set_index (filter (λ m, m ∉ ev) (_index c)) c).

(** The representation invariant of the cache. *)
Record cache_inv (c : lru_cache) : Prop := CacheInv {
  inv_capacity : 0 < _max_size c;
  inv_soft : _soft_promotion c = _max_size c / 2;
  inv_batch : _batch_evict_size c = 3 `min` (_max_size c - _soft_promotion c);
  inv_pool : length (_node_pool c) = _max_size c * 2;
  inv_nodes :
    _free_nodes c ++ _unevicted_list c ++ _lru c ≡ₚ seq 0 (_max_size c * 2);
  inv_index : _index c ≡ₚ _unevicted_list c ++ _lru c;
  inv_nr : _nr_unevicted c = length (_unevicted_list c);
  inv_lru_flag :
    ∀ n, n ∈ _lru c → evictable <$> _node_pool c !! n = Some true;
  inv_unevicted_flag :
    ∀ n, n ∈ _unevicted_list c → evictable <$> _node_pool c !! n = Some false
}.

(** What a touch of node [n] does, from state [c] to state [c']. *)
Definition touch_effect (c : lru_cache) (n : node_pointer_type)
    (c' : lru_cache) : Prop :=
  ∃ nd nd',
    _node_pool c !! n = Some nd ∧ _node_pool c' !! n = Some nd' ∧
    _current_time c' = wrap64 (_current_time c + 1) ∧
    access_time nd' = _current_time c' ∧
    key nd' = key nd ∧ evictable nd' = evictable nd ∧
    _unevicted_list c' = _unevicted_list c ∧
    (if decide (evictable nd = true ∧
                (Z.of_nat (_soft_promotion c)
                 < wrap64 (access_time nd' - promotion_time nd))%Z)
     then _lru c' = n :: filter (λ m, m ≠ n) (_lru c) ∧
          promotion_time nd' = access_time nd'
     else _lru c' = _lru c ∧ promotion_time nd' = promotion_time nd).

(** The timestamps of every pool node are ordered and bounded by the
    clock. *)
Definition times_ordered (c : lru_cache) : Prop :=
  ∀ n nd, _node_pool c !! n = Some nd →
    (0 ≤ promotion_time nd ≤ access_time nd
     ∧ access_time nd ≤ _current_time c)%Z.

(** How one public operation may change the clock and the timestamps
    of a pool node: either both timestamps stay, or the clock was
    incremented and the access time is the new clock value, the
    promotion time being kept or set to the new clock value too. *)
Definition clock_step (c c' : lru_cache) : Prop :=
  (_current_time c' = _current_time c
   ∨ _current_time c' = wrap64 (_current_time c + 1)) ∧
  ∀ m nd', _node_pool c' !! m = Some nd' →
    ∃ nd, _node_pool c !! m = Some nd ∧
      ((access_time nd' = access_time nd
        ∧ promotion_time nd' = promotion_time nd)
       ∨ (_current_time c' = wrap64 (_current_time c + 1)
          ∧ access_time nd' = _current_time c'
          ∧ (promotion_time nd' = promotion_time nd
             ∨ promotion_time nd' = _current_time c'))).

(** [insert] of each key-value pair of a list, in order, all with the
    same flag. *)
Definition inserts (e : bool) (kvs : list (Key * Value)) : list op :=
  (λ kv, Insert kv.1 kv.2 e) <$> kvs.

(** Every node linked in the index carries a key of [K]. *)
Definition keys_within (K : list Key) (c : lru_cache) : Prop :=
  ∀ n, n ∈ _index c → ∃ nd, _node_pool c !! n = Some nd ∧ key nd ∈ K.

End lru_cache.

Arguments node_type : clear implicits.
Arguments lru_cache : clear implicits.
Arguments op : clear implicits.

(** ** Example runs, with numbers as keys and values *)

(** The state after running [ops] on a fresh cache (the fresh cache
    itself when the run is undefined). *)
Definition state_after (capacity : nat) (ops : list (op nat nat))
    : lru_cache nat nat :=
  default (lru_cache_new 0 0 capacity) (run ops (lru_cache_new 0 0 capacity)).

(** Scenario 1 of the specification: five evictable insertions into a
    cache of capacity 4. *)
Definition five_inserts : list (op nat nat) :=
  [Insert 1 11 true; Insert 2 12 true; Insert 3 13 true; Insert 4 14 true;
   Insert 5 15 true].

(** A cache of capacity 1 holding the pinned key 0, whose clock and
    whose node's access time are [t]. *)
Definition pinned_at (t : Z) : lru_cache nat nat :=
  {| _max_size := 1; _soft_promotion := 0; _batch_evict_size := 1;
     _node_pool := [Node 0 0 t 1 false; Node 0 0 0 0 false];
     _free_nodes := [1]; _lru := []; _index := [0];
     _current_time := t; _unevicted_list := [0]; _nr_unevicted := 1 |}.

(** The state after scenario 1: five live evictable nodes, three free
    nodes, so that the guard of the eviction check is true. *)
Definition scenario1 : lru_cache nat nat := state_after 4 five_inserts.

(** The state the eviction check leaves (the state itself when the
    check is undefined). *)
Definition after_room (c : lru_cache nat nat) : lru_cache nat nat :=
  default c (make_room_for_insert c).

(** One pinned insertion followed by [2^64 - 1] hits on the same key:
    the 64-bit clock is incremented [2^64] times. *)
Definition clock_wrap_ops : list (op nat nat) :=
  Insert 0 0 false :: replicate (Z.to_nat (2 ^ 64 - 1)) (Get 0).

(** ** Lookup vocabulary *)

Section lookup.
Context {Key Value : Type} `{!EqDecision Key}.
Implicit Types c : lru_cache Key Value.

(** The key and the value stored in the node behind a pointer. *)
Definition node_key c (n : nat) : option Key := key <$> _node_pool c !! n.
Definition node_value c (n : nat) : option Value :=
  value <$> _node_pool c !! n.

(** No two nodes linked in the index carry the same key. *)
Definition keys_unique c : Prop :=
  ∀ n m, n ∈ _index c → m ∈ _index c → node_key c n = node_key c m → n = m.

(** The promotion time of the node behind a pointer. *)
Definition promotion_of c (n : nat) : Z :=
  default 0%Z (promotion_time <$> _node_pool c !! n).

(** The evictable list is in recency order: promotion times decrease
    strictly from the MRU head to the LRU tail. *)
Definition recency_ordered c : Prop :=
  StronglySorted (λ a b, (promotion_of c b < promotion_of c a)%Z) (_lru c).

(** Operations that pin: [insert] with [evictable = false]. *)
Definition pins (o : op Key Value) : bool :=
  match o with
  | Insert _ _ false => true
  | _ => false
  end.

End lookup.

(** ** The hash functor and the benchmark driver *)

(** [node_type::hash_key::operator()]: [key >> 6], on a [uintptr_t]. *)
Definition hash_key (k : Z) : Z := Z.shiftr k 6.

(** The value of an [int] expression: reduced to the 32-bit two's
    complement range. *)
Definition int32 (x : Z) : Z := (x + 2 ^ 31) `mod` 2 ^ 32 - 2 ^ 31.

(** [uintptr_t(i << 6)] in [main], where [i] is an [int].  The source
    needs C++20 (abbreviated function templates, a lambda as template
    argument), where the left shift of a signed value wraps around. *)
Definition bench_key (i : Z) : Z := wrap64 (int32 (Z.shiftl i 6)).

(** The body of the loop of [main]: [cache.insert(p, p, true);
    cache.get(p);].  The result of [get], which [main] drops, is
    returned. *)
Definition bench_step (i : Z) (c : lru_cache Z Z)
    : option (option Z * lru_cache Z Z) :=
  let p := bench_key i in
  c ← insert p p true c;
  Some (get p c).

(** [n] rounds of the loop of [main] from the counter value [i], with
    the results of the [get]s in order. *)
Fixpoint bench_loop (n : nat) (i : Z) (c : lru_cache Z Z)
    : option (list (option Z) * lru_cache Z Z) :=
  match n with
  | 0 => Some ([], c)
  | S n' =>
      '(r, c) ← bench_step i c;
      '(rs, c) ← bench_loop n' (i + 1) c;
      Some (r :: rs, c)
  end.

(** [main] up to the loop bound [limits] ([1u << 26] in the source):
    the cache has capacity 128 and the counter starts at 0.  The clock
    reads around the loop and the printed rate are left out. *)
Definition bench_main (limits : nat)
    : option (list (option Z) * lru_cache Z Z) :=
  bench_loop limits 0 (lru_cache_new 0%Z 0%Z 128).

(** ** More example states *)

(** Scenario 1 followed by the insertion of a sixth evictable key, which
    evicts keys 1 and 2. *)
Definition six_inserts : list (op nat nat) :=
  five_inserts ++ [Insert 6 16 true].
Definition scenario6 : lru_cache nat nat := state_after 4 six_inserts.

(** A cache of capacity 4 that holds the pinned key 7, and the same
    cache after the five insertions of scenario 1. *)
Definition pinned7 : lru_cache nat nat := state_after 4 [Insert 7 70 false].
Definition pinned7_later : lru_cache nat nat :=
  state_after 4 (Insert 7 70 false :: five_inserts).


(** ** Proof automation *)

(** Unfold the field updates down to the record constructor. *)
Ltac unfold_setters :=
  unfold evicted_state, free_node, htable_unlink, list_unlink, update_node,
    set_node_pool, set_free_nodes, set_lru, set_index, set_current_time,
    set_unevicted_list, set_nr_unevicted in *; simpl in *.

(** Scenario 1 is a run from a fresh cache. *)
Ltac reach_scenario1 :=
  exists 0, 0, 4, five_inserts; split; [lia | vm_compute; reflexivity].

(** The example states are runs from a fresh cache of capacity 4. *)
Ltac reach_after ops :=
  exists 0, 0, 4, ops; split; [lia | vm_compute; reflexivity].

(** ** Basic facts *)

Lemma pop_back_snoc {A} (l : list A) x : pop_back (l ++ [x]) = Some (l, x).
Proof.
  unfold pop_back. rewrite reverse_snoc. by rewrite reverse_involutive.
Qed.

Lemma pop_back_nil {A} : pop_back (@nil A) = None.
Proof. done. Qed.

Lemma filter_all {A} (P : A → Prop) `{!∀ x, Decision (P x)} (l : list A) :
  (∀ x, x ∈ l → P x) → filter P l = l.
Proof.
  induction l as [|a l IH]; intros Hall; [done|].
  rewrite filter_cons_True by (apply Hall; left).
  f_equal. apply IH. intros x Hx. apply Hall. by right.
Qed.

Lemma filter_none {A} (P : A → Prop) `{!∀ x, Decision (P x)} (l : list A) :
  (∀ x, x ∈ l → ¬ P x) → filter P l = [].
Proof.
  induction l as [|a l IH]; intros Hall; [done|].
  rewrite filter_cons_False by (apply Hall; left).
  apply IH. intros x Hx. apply Hall. by right.
Qed.

Lemma move_to_front (l : list nat) n :
  NoDup l → n ∈ l → n :: filter (λ m, m ≠ n) l ≡ₚ l.
Proof.
  intros Hnd (l1 & l2 & ->)%list_elem_of_split.
  apply NoDup_app in Hnd as (_ & H1 & [H2 _]%NoDup_cons).
  rewrite filter_app, filter_cons_False by (intros ?; congruence).
  rewrite !filter_all.
  - by rewrite Permutation_middle.
  - intros x Hx ->. done.
  - intros x Hx ->. apply (H1 n); [done | left].
Qed.

Section lru_cache_facts.
Context {Key Value : Type} `{!EqDecision Key}.
Implicit Types c : lru_cache Key Value.
Implicit Types n m : nat.
Implicit Types nd : node_type Key Value.

(** *** The eviction loop *)

Lemma evict_loop_underflow i iter c :
  length iter < i → evict_loop i iter c = None.
Proof.
  revert iter c. induction i as [|i IH]; intros iter c Hlen; [lia|].
  destruct iter as [|x iter _] using rev_ind; [done|].
  simpl. rewrite pop_back_snoc. simpl. apply IH.
  rewrite length_app in Hlen. simpl in Hlen. lia.
Qed.

Lemma evict_loop_spec i iter c :
  i ≤ length iter →
  ∃ keep ev, iter = keep ++ ev ∧ length ev = i ∧
    evict_loop i iter c = Some (keep, evicted_state ev c).
Proof.
  revert iter c. induction i as [|i IH]; intros iter c Hlen.
  - exists iter, []. rewrite app_nil_r. split_and!; [done..|].
    simpl. do 2 f_equal. destruct c. unfold_setters.
    f_equal. by rewrite filter_all by (intros ? _; apply not_elem_of_nil).
  - destruct iter as [|x iter _] using rev_ind; [simpl in Hlen; lia|].
    rewrite length_app in Hlen. simpl in Hlen.
    destruct (IH iter (free_node x (htable_unlink x c)))
      as (keep & ev & -> & Hev & Hloop); [lia|].
    exists keep, (ev ++ [x]). split_and!.
    + by rewrite <-app_assoc.
    + rewrite length_app. simpl. lia.
    + simpl. rewrite pop_back_snoc. simpl. rewrite Hloop.
      do 2 f_equal. destruct c. unfold_setters. f_equal.
      * by rewrite <-app_assoc.
      * rewrite list_filter_filter. apply list_filter_iff.
        intros m. rewrite elem_of_app, list_elem_of_singleton. tauto.
Qed.

Lemma make_room_not_due c :
  eviction_due c = false → make_room_for_insert c = Some c.
Proof. intros H. unfold make_room_for_insert. by rewrite H. Qed.

(** *** The representation invariant *)

Lemma cache_inv_new (key0 : Key) (value0 : Value) capacity :
  0 < capacity → cache_inv (lru_cache_new key0 value0 capacity).
Proof.
  intros Hpos. constructor; simpl; try done.
  - apply length_replicate.
  - by rewrite !app_nil_r.
  - intros n Hn. by apply not_elem_of_nil in Hn.
  - intros n Hn. by apply not_elem_of_nil in Hn.
Qed.

Lemma cache_inv_lengths c :
  cache_inv c →
  length (_free_nodes c) + length (_unevicted_list c) + length (_lru c)
  = _max_size c * 2.
Proof.
  intros Hinv. pose proof (Permutation_length (inv_nodes _ Hinv)) as H.
  rewrite !length_app, length_seq in H. lia.
Qed.

Lemma cache_inv_NoDup c :
  cache_inv c → NoDup (_free_nodes c ++ _unevicted_list c ++ _lru c).
Proof. intros Hinv. rewrite (inv_nodes _ Hinv). apply NoDup_seq. Qed.

Lemma cache_inv_node c n :
  cache_inv c → n ∈ _free_nodes c ++ _unevicted_list c ++ _lru c →
  is_Some (_node_pool c !! n).
Proof.
  intros Hinv Hn. rewrite (inv_nodes _ Hinv), elem_of_seq in Hn.
  apply lookup_lt_is_Some. rewrite (inv_pool _ Hinv). lia.
Qed.

Lemma eviction_due_iff c :
  eviction_due c = true
  ↔ length (_free_nodes c) + _nr_unevicted c < _max_size c.
Proof. unfold eviction_due. by rewrite bool_decide_eq_true. Qed.

Lemma eviction_due_lru c :
  cache_inv c →
  length (_free_nodes c) + _nr_unevicted c < _max_size c
  ↔ _max_size c < length (_lru c).
Proof.
  intros Hinv. pose proof (cache_inv_lengths _ Hinv).
  rewrite (inv_nr _ Hinv). lia.
Qed.

Lemma batch_le_capacity c :
  cache_inv c → _batch_evict_size c ≤ _max_size c.
Proof. intros Hinv. rewrite (inv_batch _ Hinv). lia. Qed.

Lemma make_room_due c :
  cache_inv c → eviction_due c = true →
  ∃ keep ev, _lru c = keep ++ ev ∧ length ev = _batch_evict_size c ∧
    make_room_for_insert c = Some (set_lru keep (evicted_state ev c)).
Proof.
  intros Hinv Hdue. unfold make_room_for_insert. rewrite Hdue.
  apply eviction_due_iff, eviction_due_lru in Hdue; [|done].
  pose proof (batch_le_capacity _ Hinv).
  destruct (evict_loop_spec (_batch_evict_size c) (_lru c) c)
    as (keep & ev & Hlru & Hev & ->); [lia|].
  by exists keep, ev.
Qed.

Lemma cache_inv_evicted c keep ev :
  cache_inv c → _lru c = keep ++ ev →
  cache_inv (set_lru keep (evicted_state ev c)).
Proof.
  intros Hinv Hlru. pose proof (cache_inv_NoDup _ Hinv) as Hnd.
  destruct Hinv, c. unfold_setters. subst.
  apply NoDup_app in Hnd as (_ & _ & Hnd).
  apply NoDup_app in Hnd as (_ & Hue & Hnd).
  apply NoDup_app in Hnd as (_ & Hke & _).
  constructor; simpl; try done.
  - rewrite <-inv_nodes0. solve_Permutation.
  - rewrite inv_index0, !filter_app.
    rewrite (filter_none _ ev) by (intros ? ? Hx; by apply Hx).
    rewrite !filter_all, app_nil_r; [done|done|].
    intros x Hx Hin. apply (Hue x Hx). rewrite elem_of_app. by right.
  - intros n Hn. apply inv_lru_flag0. rewrite elem_of_app. by left.
Qed.

Lemma evicted_state_frame c keep ev :
  let c' := set_lru keep (evicted_state ev c) in
  _max_size c' = _max_size c ∧ _soft_promotion c' = _soft_promotion c ∧
  _batch_evict_size c' = _batch_evict_size c ∧
  _node_pool c' = _node_pool c ∧ _current_time c' = _current_time c ∧
  _unevicted_list c' = _unevicted_list c ∧
  _nr_unevicted c' = _nr_unevicted c.
Proof. by destruct c. Qed.

(** [make_room_for_insert] is defined in every state that satisfies the
    invariant, keeps the invariant and leaves the nodes' fields, the
    clock and the pinned list alone. *)
Lemma make_room_inv c :
  cache_inv c →
  ∃ c', make_room_for_insert c = Some c' ∧ cache_inv c' ∧
    _max_size c' = _max_size c ∧ _soft_promotion c' = _soft_promotion c ∧
    _batch_evict_size c' = _batch_evict_size c ∧
    _node_pool c' = _node_pool c ∧ _current_time c' = _current_time c ∧
    _unevicted_list c' = _unevicted_list c ∧
    _nr_unevicted c' = _nr_unevicted c.
Proof.
  intros Hinv. destruct (eviction_due c) eqn:Hdue.
  - destruct (make_room_due _ Hinv Hdue) as (keep & ev & Hlru & _ & ->).
    eexists. split; [done|]. split; [by apply cache_inv_evicted|].
    apply evicted_state_frame.
  - exists c. by rewrite make_room_not_due.
Qed.

(** *** Touching a node *)

Lemma field_alter {B} (proj : node_type Key Value → B)
    (f : node_type Key Value → node_type Key Value) n m
    (pool : list (node_type Key Value)) :
  (∀ nd, proj (f nd) = proj nd) →
  proj <$> alter f n pool !! m = proj <$> pool !! m.
Proof.
  intros Hf. destruct (decide (n = m)) as [->|Hne].
  - rewrite list_lookup_alter_eq. destruct (pool !! m); simpl; [|done].
    by rewrite Hf.
  - by rewrite list_lookup_alter_ne.
Qed.

Lemma lru_touch_unfold c n nd :
  _node_pool c !! n = Some nd →
  let t := wrap64 (_current_time c + 1) in
  lru_touch n c =
    if promotion_due c (with_access_time t nd) then
      update_node (with_promotion_time t) n
        (set_lru (n :: filter (λ m, m ≠ n) (_lru c))
           (set_unevicted_list (filter (λ m, m ≠ n) (_unevicted_list c))
              (update_node (with_access_time t) n (set_current_time t c))))
    else update_node (with_access_time t) n (set_current_time t c).
Proof.
  intros Hnd. unfold lru_touch, next_timestamp. simpl.
  rewrite list_lookup_alter_eq, Hnd. simpl.
  unfold promotion_due. simpl. by case_match.
Qed.

Lemma find_in_index_Some k c n :
  find_in_index k c = Some n →
  n ∈ _index c ∧ ∃ nd, _node_pool c !! n = Some nd ∧ key nd = k.
Proof.
  unfold find_in_index. intros [Hin Hk]%find_some.
  split; [by apply list_elem_of_In|].
  unfold has_key in Hk. revert Hk.
  destruct (_node_pool c !! n) as [nd|]; [|done].
  intros Hk%bool_decide_eq_true. by exists nd.
Qed.

Lemma promotion_due_evictable c nd :
  promotion_due c nd = true → evictable nd = true.
Proof. unfold promotion_due. by intros [_ ?]%andb_true_iff. Qed.

Lemma cache_inv_touch c n :
  cache_inv c → n ∈ _index c → cache_inv (lru_touch n c).
Proof.
  intros Hinv Hn. pose proof (cache_inv_NoDup _ Hinv) as Hnodup.
  rewrite (inv_index _ Hinv) in Hn.
  destruct (cache_inv_node c n Hinv) as [nd Hnd].
  { rewrite elem_of_app. by right. }
  rewrite (lru_touch_unfold _ _ _ Hnd). simpl.
  destruct (promotion_due _ _) eqn:Hdue.
  - apply promotion_due_evictable in Hdue. simpl in Hdue.
    assert (n ∈ _lru c ∧ n ∉ _unevicted_list c) as [Hlru Hne].
    { apply elem_of_app in Hn as [Hn|Hn].
      - apply (inv_unevicted_flag _ Hinv) in Hn.
        rewrite Hnd in Hn. simpl in Hn. congruence.
      - split; [done|]. intros Hu.
        apply (inv_unevicted_flag _ Hinv) in Hu.
        rewrite Hnd in Hu. simpl in Hu. congruence. }
    apply NoDup_app in Hnodup as (_ & _ & Hnodup).
    apply NoDup_app in Hnodup as (_ & _ & Hnodup).
    assert (filter (λ m, m ≠ n) (_unevicted_list c) = _unevicted_list c)
      as Hfu.
    { apply filter_all. intros x Hx ->. done. }
    pose proof (move_to_front _ _ Hnodup Hlru) as Hperm.
    destruct Hinv. constructor; simpl; rewrite ?Hfu; try done.
    + by rewrite !length_alter.
    + by rewrite Hperm.
    + by rewrite Hperm.
    + intros m Hm. rewrite !field_alter by done.
      apply inv_lru_flag0. by rewrite <-Hperm.
    + intros m Hm. rewrite !field_alter by done.
      by apply inv_unevicted_flag0.
  - destruct Hinv. constructor; simpl; try done.
    + by rewrite !length_alter.
    + intros m Hm. rewrite !field_alter by done.
      by apply inv_lru_flag0.
    + intros m Hm. rewrite !field_alter by done.
      by apply inv_unevicted_flag0.
Qed.

(** *** Inserting a new node *)

Lemma cache_inv_do_insert k v e c c' :
  cache_inv c → do_insert k v e c = Some c' →
  cache_inv
    (if e then c' else set_nr_unevicted (S (_nr_unevicted c')) c').
Proof.
  intros Hinv Hins. pose proof (cache_inv_NoDup _ Hinv) as Hnodup.
  unfold do_insert, allocate_node in Hins.
  destruct (_free_nodes c) as [|n rest] eqn:Hfree; [done|].
  simpl in Hins. injection Hins as <-.
  apply NoDup_cons in Hnodup as [Hfresh _].
  rewrite !elem_of_app in Hfresh.
  assert (is_Some (_node_pool c !! n)) as [nd Hnd].
  { apply (cache_inv_node _ _ Hinv). rewrite Hfree. left. }
  destruct Hinv. rewrite Hfree in inv_nodes0.
  destruct e; constructor; simpl; try done.
  - by rewrite !length_alter.
  - rewrite <-inv_nodes0. solve_Permutation.
  - rewrite inv_index0. solve_Permutation.
  - intros m [->|Hm]%elem_of_cons.
    + by rewrite !list_lookup_alter_eq, Hnd.
    + rewrite !list_lookup_alter_ne by (intros ->; tauto).
      by apply inv_lru_flag0.
  - intros m Hm. rewrite !list_lookup_alter_ne by (intros ->; tauto).
    by apply inv_unevicted_flag0.
  - by rewrite !length_alter.
  - rewrite <-inv_nodes0. solve_Permutation.
  - rewrite inv_index0. solve_Permutation.
  - by rewrite inv_nr0.
  - intros m Hm. rewrite !list_lookup_alter_ne by (intros ->; tauto).
    by apply inv_lru_flag0.
  - intros m [->|Hm]%elem_of_cons.
    + by rewrite !list_lookup_alter_eq, Hnd.
    + rewrite !list_lookup_alter_ne by (intros ->; tauto).
      by apply inv_unevicted_flag0.
Qed.

Lemma cache_inv_update_node (f : node_type Key Value → node_type Key Value) n c :
  (∀ nd, evictable (f nd) = evictable nd) →
  cache_inv c → cache_inv (update_node f n c).
Proof.
  intros Hf Hinv. destruct Hinv, c. unfold_setters.
  constructor; simpl; try done.
  - by rewrite length_alter.
  - intros m Hm. rewrite field_alter by done. by apply inv_lru_flag0.
  - intros m Hm. rewrite field_alter by done.
    by apply inv_unevicted_flag0.
Qed.

(** *** The public operations keep the invariant *)

Lemma cache_inv_get k c : cache_inv c → cache_inv (get k c).2.
Proof.
  intros Hinv. unfold get.
  destruct (find_in_index k c) as [n|] eqn:Hfind; [|done].
  apply find_in_index_Some in Hfind as [Hn _]. simpl.
  by apply cache_inv_touch.
Qed.

Lemma cache_inv_insert_on_missing k v c c' :
  cache_inv c → insert_on_missing k v c = Some c' → cache_inv c'.
Proof.
  intros Hinv. unfold insert_on_missing, insert_check.
  destruct (make_room_inv _ Hinv) as (c1 & -> & Hinv1 & _). simpl.
  destruct (find_in_index k c1) as [n|].
  - by intros [= <-].
  - intros Hins. by apply (cache_inv_do_insert _ _ true _ _ Hinv1) in Hins.
Qed.

Lemma cache_inv_insert k v e c c' :
  cache_inv c → insert k v e c = Some c' → cache_inv c'.
Proof.
  intros Hinv. unfold insert, insert_check.
  destruct (make_room_inv _ Hinv) as (c1 & -> & Hinv1 & _). simpl.
  destruct (find_in_index k c1) as [n|] eqn:Hfind.
  - intros [= <-]. apply find_in_index_Some in Hfind as [Hn _].
    apply cache_inv_touch; [|done].
    by apply cache_inv_update_node.
  - destruct (do_insert k v e c1) as [c2|] eqn:Hins; [|done].
    simpl. intros [= <-].
    by apply (cache_inv_do_insert _ _ _ _ _ Hinv1) in Hins.
Qed.

Lemma cache_inv_exec o c c' :
  cache_inv c → exec o c = Some c' → cache_inv c'.
Proof.
  intros Hinv. destruct o as [k|k v|k v e]; simpl.
  - intros [= <-]. by apply cache_inv_get.
  - by apply cache_inv_insert_on_missing.
  - by apply cache_inv_insert.
Qed.

Lemma cache_inv_run ops c c' :
  cache_inv c → run ops c = Some c' → cache_inv c'.
Proof.
  revert c. induction ops as [|o ops IH]; intros c Hinv; simpl.
  - by intros [= <-].
  - destruct (exec o c) as [c1|] eqn:Hexec; [|done]. simpl.
    apply IH. by eapply cache_inv_exec.
Qed.

Lemma run_app ops1 ops2 c :
  run (ops1 ++ ops2) c = run ops1 c ≫= run ops2.
Proof.
  revert c. induction ops1 as [|o ops1 IH]; intros c; [done|].
  simpl. destruct (exec o c); simpl; [apply IH|done].
Qed.

Lemma reachable_new (key0 : Key) (value0 : Value) capacity :
  0 < capacity → reachable (lru_cache_new key0 value0 capacity).
Proof. intros Hpos. by exists key0, value0, capacity, []. Qed.

Lemma reachable_exec o c c' :
  reachable c → exec o c = Some c' → reachable c'.
Proof.
  intros (key0 & value0 & capacity & ops & Hpos & Hrun) Hexec.
  exists key0, value0, capacity, (ops ++ [o]). split; [done|].
  rewrite run_app, Hrun. simpl. by rewrite Hexec.
Qed.

(** Every reachable state satisfies the representation invariant. *)
Lemma reachable_inv c : reachable c → cache_inv c.
Proof.
  intros (key0 & value0 & capacity & ops & Hpos & Hrun).
  eapply cache_inv_run; [|done]. by apply cache_inv_new.
Qed.

(** ** When the eviction loop underflows *)

(** The loop underflows exactly when it is asked for more nodes than
    the list holds. *)
Lemma evict_loop_None i iter c :
  evict_loop i iter c = None ↔ length iter < i.
Proof.
  split; [|apply evict_loop_underflow].
  intros Hnone. destruct (decide (i ≤ length iter)) as [Hle|]; [|lia].
  destruct (evict_loop_spec i iter c Hle) as (? & ? & _ & _ & Hsome).
  congruence.
Qed.

(** ** The claims about touching and overwriting *)

Lemma lru_touch_frame n c :
  _index (lru_touch n c) = _index c ∧
  _free_nodes (lru_touch n c) = _free_nodes c ∧
  _nr_unevicted (lru_touch n c) = _nr_unevicted c ∧
  _max_size (lru_touch n c) = _max_size c ∧
  _soft_promotion (lru_touch n c) = _soft_promotion c.
Proof.
  unfold lru_touch, next_timestamp. simpl. by repeat case_match.
Qed.

Lemma lru_touch_key n c m :
  key <$> _node_pool (lru_touch n c) !! m = key <$> _node_pool c !! m.
Proof.
  unfold lru_touch, next_timestamp. simpl.
  repeat case_match; simpl; by rewrite !field_alter.
Qed.

Lemma lru_touch_value n c m :
  value <$> _node_pool (lru_touch n c) !! m = value <$> _node_pool c !! m.
Proof.
  unfold lru_touch, next_timestamp. simpl.
  repeat case_match; simpl; by rewrite !field_alter.
Qed.

Lemma find_in_index_ext k c c' :
  _index c' = _index c →
  (∀ m, key <$> _node_pool c' !! m = key <$> _node_pool c !! m) →
  find_in_index k c' = find_in_index k c.
Proof.
  intros Hidx Hkey. unfold find_in_index. rewrite Hidx. clear Hidx.
  induction (_index c) as [|m l IH]; [done|]. simpl. rewrite IH.
  replace (has_key c' k m) with (has_key c k m); [done|].
  unfold has_key. specialize (Hkey m).
  destruct (_node_pool c' !! m), (_node_pool c !! m); simpl in Hkey;
    try done.
  injection Hkey as Hkey. by rewrite Hkey.
Qed.

Lemma promotion_due_iff c nd :
  promotion_due c nd = true
  ↔ evictable nd = true ∧
    (Z.of_nat (_soft_promotion c)
     < wrap64 (access_time nd - promotion_time nd))%Z.
Proof.
  unfold promotion_due. rewrite andb_true_iff, bool_decide_eq_true. tauto.
Qed.

(** A touch of a linked node in a state that satisfies the invariant. *)
Lemma lru_touch_effect c n :
  cache_inv c → n ∈ _index c → touch_effect c n (lru_touch n c).
Proof.
  intros Hinv Hn. pose proof (cache_inv_NoDup _ Hinv) as Hnodup.
  rewrite (inv_index _ Hinv) in Hn.
  destruct (cache_inv_node c n Hinv) as [nd Hnd].
  { rewrite elem_of_app. by right. }
  rewrite (lru_touch_unfold _ _ _ Hnd). simpl.
  set (t := wrap64 (_current_time c + 1)).
  destruct (promotion_due c (with_access_time t nd)) eqn:Hdue.
  - pose proof (proj1 (promotion_due_iff _ _) Hdue) as [Hev Hlt].
    simpl in Hev, Hlt.
    assert (n ∉ _unevicted_list c) as Hne.
    { intros Hu. apply (inv_unevicted_flag _ Hinv) in Hu.
      rewrite Hnd in Hu. simpl in Hu. congruence. }
    exists nd, (with_promotion_time t (with_access_time t nd)).
    split; [done|]. split.
    { simpl. by rewrite !list_lookup_alter_eq, Hnd. }
    split_and!; try done.
    + simpl. apply filter_all. by intros x Hx ->.
    + simpl. by rewrite decide_True.
  - exists nd, (with_access_time t nd).
    split; [done|]. split.
    { simpl. by rewrite list_lookup_alter_eq, Hnd. }
    split_and!; try done.
    simpl. rewrite decide_False; [done|].
    intros Hyes.
    pose proof (proj2 (promotion_due_iff c (with_access_time t nd)) Hyes).
    congruence.
Qed.

(** The overwrite path of [insert]: the key is found after the
    eviction check. *)
Lemma insert_overwrite k v e c c1 n :
  make_room_for_insert c = Some c1 → find_in_index k c1 = Some n →
  insert k v e c = Some (lru_touch n (update_node (with_value v) n c1)).
Proof.
  intros Hroom Hfind. unfold insert, insert_check.
  rewrite Hroom. simpl. by rewrite Hfind.
Qed.

(** C6: on every hit of [get] and on every overwrite hit of [insert],
    the node's access time becomes the incremented clock; the node is
    moved to the MRU end of the evictable list, with its promotion time
    set to its access time, exactly when it is evictable and
    [access_time - promotion_time > soft_promotion_threshold]; a node
    that is not evictable is never moved. *)
Theorem C6_touch_policy c k n :
  reachable c →
  (find_in_index k c = Some n → touch_effect c n (get k c).2) ∧
  (∀ v e c1,
     make_room_for_insert c = Some c1 → find_in_index k c1 = Some n →
     ∃ c', insert k v e c = Some c' ∧ touch_effect c1 n c').
Proof.
  intros Hinv%reachable_inv. split.
  - intros Hfind. unfold get. rewrite Hfind. simpl.
    apply find_in_index_Some in Hfind as [Hn _].
    by apply lru_touch_effect.
  - intros v e c1 Hroom Hfind.
    rewrite (insert_overwrite _ _ _ _ _ _ Hroom Hfind).
    eexists. split; [done|].
    destruct (make_room_inv _ Hinv) as (c1' & Hroom' & Hinv1 & _).
    assert (c1' = c1) as -> by congruence.
    apply find_in_index_Some in Hfind as [Hn (nd & Hnd & _)].
    destruct (lru_touch_effect (update_node (with_value v) n c1) n)
      as (nd0 & nd' & Hnd0 & Hnd' & Hrest).
    { by apply cache_inv_update_node. }
    { done. }
    exists nd, nd'. split; [done|]. split; [done|].
    revert Hnd0 Hrest. unfold update_node. simpl.
    rewrite list_lookup_alter_eq, Hnd. simpl. by intros [= <-].
Qed.

(** C1 (amended): when the key is in the index after the eviction
    check that [insert_check] starts with, [insert_on_missing] does
    nothing more than that check: no node field and no timestamp
    changes, the clock and the pinned list stay, the evictable list
    only loses the evicted tail; when the eviction guard is false the
    whole state is unchanged. *)
Theorem C1_insert_on_missing_present c k v c1 n :
  reachable c →
  make_room_for_insert c = Some c1 → find_in_index k c1 = Some n →
  insert_on_missing k v c = Some c1 ∧
  _node_pool c1 = _node_pool c ∧ _current_time c1 = _current_time c ∧
  _unevicted_list c1 = _unevicted_list c ∧
  (∃ ev, _lru c = _lru c1 ++ ev) ∧
  (eviction_due c = false → c1 = c).
Proof.
  intros Hinv%reachable_inv Hroom Hfind. split.
  { unfold insert_on_missing, insert_check. rewrite Hroom. simpl.
    by rewrite Hfind. }
  destruct (make_room_inv _ Hinv)
    as (c1' & Hroom' & _ & _ & _ & _ & Hpool & Htime & Hun & _).
  assert (c1' = c1) as -> by congruence.
  split_and!; try done.
  - destruct (eviction_due c) eqn:Hdue.
    + destruct (make_room_due _ Hinv Hdue) as (keep & ev & Hlru & _ & Heq).
      exists ev. rewrite Hlru. rewrite Hroom in Heq.
      injection Heq as ->. by destruct c.
    + exists []. rewrite (make_room_not_due _ Hdue) in Hroom.
      injection Hroom as ->. by rewrite app_nil_r.
  - intros Hdue. rewrite (make_room_not_due _ Hdue) in Hroom. congruence.
Qed.

(** The overwrite path of [insert] keeps the class of the node. *)
Lemma insert_overwrite_class c k v e c1 n nd :
  reachable c →
  make_room_for_insert c = Some c1 → find_in_index k c1 = Some n →
  _node_pool c1 !! n = Some nd →
  ∃ c' nd',
    insert k v e c = Some c' ∧ _node_pool c' !! n = Some nd' ∧
    key nd' = k ∧ value nd' = v ∧ evictable nd' = evictable nd ∧
    access_time nd' = _current_time c' ∧
    _current_time c' = wrap64 (_current_time c + 1) ∧
    (n ∈ _lru c' ↔ n ∈ _lru c1) ∧
    _unevicted_list c' = _unevicted_list c1 ∧
    _nr_unevicted c' = _nr_unevicted c ∧
    (get k c').1 = Some v.
Proof.
  intros Hinv%reachable_inv Hroom Hfind Hnd.
  rewrite (insert_overwrite _ _ _ _ _ _ Hroom Hfind).
  destruct (make_room_inv _ Hinv)
    as (c1' & Hroom' & Hinv1 & _ & _ & _ & _ & Htime & _ & Hnr).
  assert (c1' = c1) as -> by congruence.
  pose proof (find_in_index_Some _ _ _ Hfind) as [Hn (nd0 & Hnd0 & Hk)].
  assert (nd0 = nd) as -> by congruence.
  set (c2 := update_node (with_value v) n c1).
  assert (cache_inv c2) as Hinv2 by by apply cache_inv_update_node.
  assert (_node_pool c2 !! n = Some (with_value v nd)) as Hnd2.
  { subst c2. simpl. by rewrite list_lookup_alter_eq, Hnd. }
  assert (∀ m, key <$> _node_pool c2 !! m = key <$> _node_pool c1 !! m)
    as Hkey2.
  { intros m. subst c2. simpl. by rewrite field_alter. }
  assert (_index c2 = _index c1 ∧ _lru c2 = _lru c1 ∧
          _unevicted_list c2 = _unevicted_list c1 ∧
          _nr_unevicted c2 = _nr_unevicted c1 ∧
          _current_time c2 = _current_time c1)
    as (Hidx2 & Hlru2 & Hun2 & Hnr2 & Htime2) by done.
  clearbody c2.
  destruct (lru_touch_effect c2 n Hinv2)
    as (nd2 & nd' & Hnd2' & Hnd' & Hclock & Hacc & Hkey & Hev & Hun & Hlru).
  { by rewrite Hidx2. }
  assert (nd2 = with_value v nd) as -> by congruence.
  destruct (lru_touch_frame n c2) as (Hidx & _ & Hnr' & _).
  assert (value nd' = v) as Hval.
  { pose proof (lru_touch_value n c2 n) as Hv.
    rewrite Hnd', Hnd2 in Hv. simpl in Hv. congruence. }
  exists (lru_touch n c2), nd'. split_and!.
  - done.
  - done.
  - by rewrite Hkey.
  - done.
  - by rewrite Hev.
  - done.
  - by rewrite Hclock, Htime2, Htime.
  - rewrite <-Hlru2. case_decide as Hdue.
    + destruct Hlru as [-> _]. split; [|intros _; left].
      intros _. destruct Hdue as [Hdue _]. simpl in Hdue.
      rewrite Hlru2. rewrite (inv_index _ Hinv1) in Hn.
      apply elem_of_app in Hn as [Hn|Hn]; [|done].
      apply (inv_unevicted_flag _ Hinv1) in Hn.
      rewrite Hnd in Hn. simpl in Hn. congruence.
    + by destruct Hlru as [-> _].
  - by rewrite Hun, Hun2.
  - by rewrite Hnr', Hnr2, Hnr.
  - assert (find_in_index k (lru_touch n c2) = Some n) as Hfind'.
    { rewrite <-Hfind. apply find_in_index_ext; [by rewrite Hidx|].
      intros m. by rewrite lru_touch_key. }
    unfold get. rewrite Hfind'. simpl.
    rewrite lru_touch_value, Hnd'. simpl. by rewrite Hval.
Qed.

(** ** The claims about timestamps *)

Lemma lookup_alter_Some (f : node_type Key Value → node_type Key Value)
    n m (pool : list (node_type Key Value)) nd' :
  alter f n pool !! m = Some nd' →
  ∃ nd, pool !! m = Some nd ∧ ((m ≠ n ∧ nd' = nd) ∨ (m = n ∧ nd' = f nd)).
Proof.
  rewrite list_lookup_alter. case_decide as Hnm.
  - subst m. destruct (pool !! n) as [nd|]; [|done].
    intros [= <-]. exists nd. split; [done|]. by right.
  - intros Hm. exists nd'. split; [done|]. left. split; [congruence|done].
Qed.

Lemma clock_step_refl c : clock_step c c.
Proof.
  split; [by left|]. intros m nd' Hm. exists nd'. split; [done|]. by left.
Qed.

Lemma lru_touch_pool n c :
  let t := wrap64 (_current_time c + 1) in
  _current_time (lru_touch n c) = t ∧
  (_node_pool (lru_touch n c)
   = alter (with_promotion_time t) n
       (alter (with_access_time t) n (_node_pool c))
   ∨ _node_pool (lru_touch n c) = alter (with_access_time t) n (_node_pool c)).
Proof.
  unfold lru_touch, next_timestamp. simpl.
  rewrite list_lookup_alter_eq.
  destruct (_node_pool c !! n) as [nd|]; simpl; [|by auto].
  case_match; simpl; by auto.
Qed.

Lemma clock_step_touch c n : clock_step c (lru_touch n c).
Proof.
  destruct (lru_touch_pool n c) as [Htime Hpool].
  split; [by right|]. intros m nd'. rewrite Htime.
  destruct Hpool as [-> | ->]; intros Hm.
  - apply lookup_alter_Some in Hm as (nd1 & Hm & Hcases).
    apply lookup_alter_Some in Hm as (nd & Hm & Hcases0).
    exists nd. split; [done|].
    destruct Hcases as [[? ->]|[-> ->]], Hcases0 as [[? ->]|[? ->]];
      simpl; try done.
    + by left.
    + right. split_and!; try done. by right.
  - apply lookup_alter_Some in Hm as (nd & Hm & [[? ->]|[-> ->]]);
      exists nd; (split; [done|]).
    + by left.
    + right. split_and!; try done. by left.
Qed.

Lemma clock_step_value c c' v n :
  clock_step (update_node (with_value v) n c) c' → clock_step c c'.
Proof.
  intros [Hclock Hpool]. split; [done|]. intros m nd' Hm.
  destruct (Hpool m nd' Hm) as (nd & Hnd & Hcases).
  apply lookup_alter_Some in Hnd as (nd0 & Hnd0 & [[_ ->]|[_ ->]]);
    exists nd0; by split.
Qed.

Lemma clock_step_do_insert k v e c c' :
  do_insert k v e c = Some c' → clock_step c c'.
Proof.
  unfold do_insert, allocate_node.
  destruct (_free_nodes c) as [|n rest]; [done|]. simpl.
  intros [= <-]. split.
  { right. by destruct e. }
  intros m nd' Hm.
  assert (∃ nd, _node_pool c !! m = Some nd ∧
    (nd' = nd ∨ nd' = Node k v (wrap64 (_current_time c + 1))
                        (wrap64 (_current_time c + 1)) e))
    as (nd & Hnd & Hcases).
  { destruct e; simpl in Hm; rewrite !list_alter_alter_eq in Hm;
      apply lookup_alter_Some in Hm as (nd & Hm & [[_ ->]|[_ ->]]);
      exists nd; (split; [done|]); simpl; auto. }
  exists nd. split; [done|]. destruct Hcases as [-> | ->].
  - by left.
  - right. destruct e; simpl; split_and!; try done; by right.
Qed.

Lemma clock_step_exec o c c' :
  cache_inv c → exec o c = Some c' → clock_step c c'.
Proof.
  intros Hinv.
  destruct (make_room_inv _ Hinv)
    as (c1 & Hroom & _ & _ & _ & _ & Hpool & Htime & _).
  assert (∀ c2, clock_step c1 c2 → clock_step c c2) as Hfrom.
  { unfold clock_step. by rewrite Hpool, Htime. }
  destruct o as [k|k v|k v e]; simpl.
  - intros [= <-]. unfold get. case_match; simpl.
    + apply clock_step_touch.
    + apply clock_step_refl.
  - unfold insert_on_missing, insert_check. rewrite Hroom. simpl.
    case_match.
    + intros [= <-]. apply Hfrom, clock_step_refl.
    + intros Hins. by apply Hfrom, (clock_step_do_insert k v true).
  - unfold insert, insert_check. rewrite Hroom. simpl. case_match.
    + intros [= <-]. eapply Hfrom, clock_step_value, clock_step_touch.
    + destruct (do_insert k v e c1) as [c2|] eqn:Hins; [|done]. simpl.
      intros [= <-]. apply Hfrom.
      apply clock_step_do_insert in Hins. by destruct e, c2.
Qed.

(** Without wrap-around a step keeps the timestamps ordered and moves
    the clock forward by at most one. *)
Lemma clock_step_ordered c c' :
  times_ordered c → (0 ≤ _current_time c)%Z →
  (_current_time c + 1 < 2 ^ 64)%Z → clock_step c c' →
  times_ordered c' ∧
  (_current_time c ≤ _current_time c' ≤ _current_time c + 1)%Z.
Proof.
  intros Hord Hpos Hbound [Hclock Hpool].
  assert (wrap64 (_current_time c + 1) = _current_time c + 1)%Z as Hwrap.
  { unfold wrap64. apply Z.mod_small. lia. }
  rewrite Hwrap in Hclock. split; [|lia].
  intros m nd' Hm. destruct (Hpool m nd' Hm) as (nd & Hnd & Hcases).
  specialize (Hord m nd Hnd). rewrite Hwrap in Hcases. lia.
Qed.

Lemma times_ordered_new (key0 : Key) (value0 : Value) capacity :
  times_ordered (lru_cache_new key0 value0 capacity).
Proof.
  intros n nd. simpl. intros [-> _]%lookup_replicate. simpl. lia.
Qed.

Lemma run_times ops c c' :
  cache_inv c → times_ordered c → (0 ≤ _current_time c)%Z →
  (_current_time c + Z.of_nat (length ops) < 2 ^ 64)%Z →
  run ops c = Some c' →
  times_ordered c' ∧
  (0 ≤ _current_time c' ≤ _current_time c + Z.of_nat (length ops))%Z.
Proof.
  revert c. induction ops as [|o ops IH]; intros c Hinv Hord Hpos Hbound.
  - simpl. intros [= <-]. split; [done|]. lia.
  - simpl in *. destruct (exec o c) as [c1|] eqn:Hexec; [|done]. simpl.
    intros Hrun.
    destruct (clock_step_ordered c c1) as [Hord1 Hclock1]; try done.
    { lia. } { by eapply clock_step_exec. }
    destruct (IH c1) as [Hord' Hclock']; try done.
    { by eapply cache_inv_exec. } { lia. } { lia. }
    split; [done|]. lia.
Qed.

(** C10 (amended): in every state reached from a fresh cache by fewer
    than [2^64] public operations, so that the 64-bit clock has not
    wrapped around, every live node has
    [promotion_time ≤ access_time ≤ current_time]; and if one more
    operation is run, the clock does not go back and every access time
    this operation assigns is the new clock value, which is greater
    than every access time stored before. *)
Theorem C10_timestamps_ordered (key0 : Key) (value0 : Value) capacity ops c :
  0 < capacity → (Z.of_nat (length ops) < 2 ^ 64)%Z →
  run ops (lru_cache_new key0 value0 capacity) = Some c →
  (∀ n nd, n ∈ _lru c ++ _unevicted_list c → _node_pool c !! n = Some nd →
     (promotion_time nd ≤ access_time nd ≤ _current_time c)%Z) ∧
  (∀ o c', (Z.of_nat (length ops) + 1 < 2 ^ 64)%Z → exec o c = Some c' →
     (_current_time c ≤ _current_time c')%Z ∧
     ∀ n nd nd',
       _node_pool c !! n = Some nd → _node_pool c' !! n = Some nd' →
       access_time nd' ≠ access_time nd →
       access_time nd' = _current_time c' ∧
       ∀ m md, _node_pool c !! m = Some md →
         (access_time md < access_time nd')%Z).
Proof.
  intros Hpos Hlen Hrun.
  pose proof (cache_inv_new key0 value0 capacity Hpos) as Hinv0.
  pose proof (cache_inv_run _ _ _ Hinv0 Hrun) as Hinv.
  destruct (run_times ops _ c Hinv0 (times_ordered_new _ _ _))
    as [Hord Hclock]; try done.
  simpl in Hclock. split.
  { intros n nd _ Hnd. specialize (Hord n nd Hnd). lia. }
  intros o c' Hlen' Hexec.
  pose proof (clock_step_exec _ _ _ Hinv Hexec) as Hstep.
  destruct (clock_step_ordered c c') as [_ Hclock']; try done.
  { lia. } { lia. }
  split; [lia|]. intros n nd nd' Hnd Hnd' Hchanged.
  destruct Hstep as [_ Hpool].
  destruct (Hpool n nd' Hnd') as (nd0 & Hnd0 & Hcases).
  assert (nd0 = nd) as -> by congruence.
  destruct Hcases as [[? _]|(Htick & Hacc & _)]; [done|].
  split; [done|]. intros m md Hmd. specialize (Hord m md Hmd).
  assert (wrap64 (_current_time c + 1) = _current_time c + 1)%Z as Hwrap.
  { unfold wrap64. apply Z.mod_small. lia. }
  lia.
Qed.

(** ** Insertions of new keys while the eviction guard is false *)

Lemma find_in_index_fresh K k c :
  keys_within K c → k ∉ K → find_in_index k c = None.
Proof.
  intros Hkeys Hk. unfold find_in_index.
  assert (∀ n, n ∈ _index c → has_key c k n = false) as Hall.
  { intros n (nd & Hnd & Hin)%Hkeys. unfold has_key. rewrite Hnd.
    apply bool_decide_eq_false. by intros <-. }
  induction (_index c) as [|n l IH]; [done|]. simpl.
  rewrite Hall by left. apply IH. intros m Hm. apply Hall. by right.
Qed.

Lemma keys_within_mono K K' c :
  (∀ k, k ∈ K → k ∈ K') → keys_within K c → keys_within K' c.
Proof.
  intros Hsub Hkeys n (nd & Hnd & Hin)%Hkeys. exists nd. auto.
Qed.

Lemma lru_not_due c :
  cache_inv c → length (_lru c) ≤ _max_size c → eviction_due c = false.
Proof.
  intros Hinv Hlen. apply not_true_is_false.
  intros Hdue%eviction_due_iff. apply eviction_due_lru in Hdue; [lia|done].
Qed.

Lemma insert_fresh_exhausted K k v e c :
  cache_inv c → keys_within K c → k ∉ K →
  length (_lru c) ≤ _max_size c → _free_nodes c = [] →
  insert k v e c = None.
Proof.
  intros Hinv Hkeys Hk Hlen Hfree. unfold insert, insert_check.
  rewrite (make_room_not_due _ (lru_not_due _ Hinv Hlen)). simpl.
  rewrite (find_in_index_fresh _ _ _ Hkeys Hk).
  unfold do_insert, allocate_node. by rewrite Hfree.
Qed.

Lemma insert_fresh_step K k v e c :
  cache_inv c → keys_within K c → k ∉ K →
  length (_lru c) ≤ _max_size c → _free_nodes c ≠ [] →
  ∃ c', insert k v e c = Some c' ∧ cache_inv c' ∧ keys_within (k :: K) c' ∧
    S (length (_free_nodes c')) = length (_free_nodes c) ∧
    length (_lru c') = length (_lru c) + (if e then 1 else 0) ∧
    _max_size c' = _max_size c.
Proof.
  intros Hinv Hkeys Hk Hlen Hfree.
  pose proof (cache_inv_NoDup _ Hinv) as Hnodup.
  pose proof (inv_index _ Hinv) as Hidx.
  destruct (insert k v e c) as [c'|] eqn:Hins.
  2:{ revert Hins. unfold insert, insert_check.
      rewrite (make_room_not_due _ (lru_not_due _ Hinv Hlen)). simpl.
      rewrite (find_in_index_fresh _ _ _ Hkeys Hk).
      unfold do_insert, allocate_node.
      by destruct (_free_nodes c). }
  exists c'. split; [done|]. split; [by eapply cache_inv_insert|].
  revert Hins. unfold insert, insert_check.
  rewrite (make_room_not_due _ (lru_not_due _ Hinv Hlen)). simpl.
  rewrite (find_in_index_fresh _ _ _ Hkeys Hk).
  unfold do_insert, allocate_node.
  destruct (_free_nodes c) as [|n rest] eqn:Hfree'; [done|]. simpl.
  apply NoDup_cons in Hnodup as [Hfresh _].
  assert (n ∉ _index c) as Hnidx.
  { rewrite Hidx. intros Hin. apply Hfresh. rewrite elem_of_app. by right. }
  assert (is_Some (_node_pool c !! n)) as [nd0 Hnd0].
  { apply (cache_inv_node _ _ Hinv). rewrite Hfree'. left. }
  intros [= <-]. split_and!.
  - intros m Hm.
    assert (m = n ∨ m ∈ _index c) as [->|Hm'].
    { destruct e; simpl in Hm; by apply elem_of_cons in Hm. }
    + eexists. split.
      * destruct e; simpl; by rewrite !list_lookup_alter_eq, Hnd0.
      * simpl. left.
    + destruct (Hkeys m Hm') as (nd & Hnd & Hin). exists nd. split.
      * destruct e; simpl;
          by rewrite !list_lookup_alter_ne by (intros ->; done).
      * by right.
  - by destruct e.
  - destruct e; simpl; lia.
  - by destruct e.
Qed.

Lemma run_inserts_fresh (e : bool) (kvs : list (Key * Value)) : ∀ (K : list Key) c,
  cache_inv c → keys_within K c →
  NoDup kvs.*1 → (∀ k, k ∈ kvs.*1 → k ∉ K) →
  (if e then length (_lru c) + length kvs ≤ S (_max_size c)
   else length (_lru c) ≤ _max_size c) →
  length kvs ≤ length (_free_nodes c) →
  ∃ c', run (inserts e kvs) c = Some c' ∧ cache_inv c' ∧
    keys_within (kvs.*1 ++ K) c' ∧
    length (_free_nodes c') + length kvs = length (_free_nodes c) ∧
    length (_lru c') = length (_lru c) + (if e then length kvs else 0) ∧
    _max_size c' = _max_size c.
Proof.
  induction kvs as [|[k v] kvs IH]; intros K c Hinv Hkeys Hnodup Hfresh Hlru Hfree.
  - exists c. split_and!; simpl; try done; try lia. destruct e; lia.
  - simpl in *. apply NoDup_cons in Hnodup as [Hk Hnodup].
    destruct (insert_fresh_step K k v e c)
      as (c1 & Hins & Hinv1 & Hkeys1 & Hfree1 & Hlru1 & Hmax1); try done.
    { apply Hfresh. left. }
    { destruct e; lia. }
    { destruct (_free_nodes c); [simpl in Hfree; lia|done]. }
    destruct (IH (k :: K) c1) as (c' & Hrun & Hinv' & Hkeys' & Hfree' & Hlru' & Hmax');
      try done.
    { intros k' Hk' [->|Hin]%elem_of_cons; [done|].
      apply (Hfresh k'); [by right|done]. }
    { rewrite Hmax1. destruct e; lia. }
    { lia. }
    exists c'. rewrite Hins. simpl. split_and!; try done.
    + eapply keys_within_mono; [|done]. intros k'.
      rewrite !elem_of_app, !elem_of_cons, elem_of_app. tauto.
    + lia.
    + destruct e; lia.
    + congruence.
Qed.

(** C2 (what the code does): for every capacity, once [capacity] pinned
    entries and [capacity] evictable entries with distinct keys have
    been inserted into a fresh cache, the free stack is empty while the
    eviction guard is false, so the insertion of one more new key takes
    the top of an empty stack: the run of the claim's sequence is
    undefined from its insertion number [2 * capacity + 1] on. *)
Theorem C2_pool_exhausted (key0 : Key) (value0 : Value) capacity
    (ps es : list (Key * Value)) k v rest :
  0 < capacity → length ps = capacity → length es = capacity →
  NoDup (ps.*1 ++ es.*1 ++ [k]) →
  (∃ c, run (inserts false ps ++ inserts true es)
          (lru_cache_new key0 value0 capacity) = Some c ∧
        _free_nodes c = [] ∧ eviction_due c = false ∧
        length (_unevicted_list c) = capacity ∧
        length (_lru c) = capacity ∧
        insert k v true c = None) ∧
  run (inserts false ps ++ inserts true (es ++ (k, v) :: rest))
    (lru_cache_new key0 value0 capacity) = None.
Proof.
  intros Hpos Hps Hes Hnodup.
  apply NoDup_app in Hnodup as (Hnd_ps & Hdisj1 & Hnodup).
  apply NoDup_app in Hnodup as (Hnd_es & Hdisj2 & _).
  set (c0 := lru_cache_new key0 value0 capacity).
  pose proof (cache_inv_new key0 value0 capacity Hpos) as Hinv0.
  destruct (run_inserts_fresh false ps [] c0)
    as (c1 & Hrun1 & Hinv1 & Hkeys1 & Hfree1 & Hlru1 & Hmax1); try done.
  { intros n Hn. by apply not_elem_of_nil in Hn. }
  { intros k' _ Hk'. by apply not_elem_of_nil in Hk'. }
  { simpl. lia. }
  { simpl. rewrite length_seq. lia. }
  simpl in Hfree1, Hlru1, Hmax1. rewrite length_seq in Hfree1.
  destruct (run_inserts_fresh true es (ps.*1 ++ []) c1)
    as (c2 & Hrun2 & Hinv2 & Hkeys2 & Hfree2 & Hlru2 & Hmax2); try done.
  { intros k' Hk' Hin. rewrite app_nil_r in Hin.
    apply (Hdisj1 k' Hin). rewrite elem_of_app. by left. }
  { lia. }
  { lia. }
  assert (_free_nodes c2 = []) as Hempty.
  { apply length_zero_iff_nil. lia. }
  assert (insert k v true c2 = None) as Hundef.
  { apply (insert_fresh_exhausted (es.*1 ++ ps.*1 ++ [])); try done; [|lia].
    rewrite app_nil_r, elem_of_app. intros [Hin|Hin].
    - apply (Hdisj2 k Hin). apply list_elem_of_singleton. done.
    - apply (Hdisj1 k Hin). rewrite elem_of_app, list_elem_of_singleton.
      by right. }
  split.
  - exists c2. rewrite run_app, Hrun1. simpl. split_and!; try done.
    + apply lru_not_due; [done|lia].
    + pose proof (cache_inv_lengths _ Hinv2). rewrite Hempty in *.
      simpl in *. lia.
    + lia.
  - rewrite run_app, Hrun1. simpl. unfold inserts.
    rewrite fmap_app, run_app. fold (inserts true es). rewrite Hrun2.
    simpl. by rewrite Hundef.
Qed.

End lru_cache_facts.

(** ** The scenarios of the specification *)

Lemma reachable_five_inserts : reachable (state_after 4 five_inserts).
Proof.
  exists 0, 0, 4, five_inserts. split; [lia|]. vm_compute. reflexivity.
Qed.

(** C3 (refuted as stated): after the five insertions [get 1] is a hit. *)
Lemma C3_counterexample :
  run five_inserts (lru_cache_new 0 0 4) = Some (state_after 4 five_inserts) ∧
  (get 1 (state_after 4 five_inserts)).1 = Some 11 ∧
  (get 1 (state_after 4 five_inserts)).1 ≠ None.
Proof. split_and!; [by vm_compute..|]. by vm_compute. Qed.

(** C3 (amended): on a fresh cache of capacity 4 (soft promotion
    threshold 2, batch size 2) the insertions of the evictable keys
    1,2,3,4,5 evict nothing, the pool having eight nodes: afterwards
    [get 1] returns [v1], [get 5] returns [v5] and the keys 1 to 5 are
    all resident, with three free nodes left.  It is the sixth insertion
    that evicts keys 1 and 2. *)
Theorem C3_five_inserts_keep_all {Value} (value0 v1 v2 v3 v4 v5 v6 : Value) :
  ∃ c c6,
    run [Insert 1 v1 true; Insert 2 v2 true; Insert 3 v3 true;
         Insert 4 v4 true; Insert 5 v5 true] (lru_cache_new 0 value0 4)
    = Some c ∧
    _soft_promotion c = 2 ∧ _batch_evict_size c = 2 ∧
    (get 1 c).1 = Some v1 ∧ (get 5 c).1 = Some v5 ∧
    Forall (λ k, is_Some (find_in_index k c)) [1; 2; 3; 4; 5] ∧
    length (_free_nodes c) = 3 ∧
    insert 6 v6 true c = Some c6 ∧
    (get 1 c6).1 = None ∧ (get 2 c6).1 = None ∧ (get 6 c6).1 = Some v6 ∧
    Forall (λ k, is_Some (find_in_index k c6)) [3; 4; 5; 6].
Proof.
  eexists _, _. split; [vm_compute; reflexivity|].
  split_and!; try (vm_compute; reflexivity).
  - repeat constructor; by eexists.
  - repeat constructor; by eexists.
Qed.

(** C1 (refuted as stated): in the state after scenario 1 the guard of
    the eviction check is true, so [insert_on_missing] of the present
    key 5 evicts keys 1 and 2; and [insert_on_missing] of the present
    key 1 evicts key 1 itself and then stores the new value. *)
Lemma C1_counterexample :
  ∃ c c5 c1 : lru_cache nat nat,
    reachable c ∧
    find_in_index 5 c = Some 4 ∧ insert_on_missing 5 99 c = Some c5 ∧
    c5 ≠ c ∧ _lru c = [4; 3; 2; 1; 0] ∧ _lru c5 = [4; 3; 2] ∧
    _free_nodes c = [5; 6; 7] ∧ _free_nodes c5 = [1; 0; 5; 6; 7] ∧
    (get 1 c).1 = Some 11 ∧ insert_on_missing 1 99 c = Some c1 ∧
    (get 1 c1).1 = Some 99.
Proof.
  exists (state_after 4 five_inserts). eexists _, _.
  split; [apply reachable_five_inserts|].
  split_and!; try (vm_compute; reflexivity).
  intros Heq. apply (f_equal _lru) in Heq. vm_compute in Heq. discriminate.
Qed.

(** C7 (refuted as stated): in the state after scenario 1, [insert] of
    the present evictable key 1 with [evictable = false] first evicts
    key 1 and then inserts it anew as a pinned entry. *)
Lemma C7_counterexample :
  ∃ (c c' : lru_cache nat nat) n n',
    reachable c ∧
    find_in_index 1 c = Some n ∧ n ∈ _lru c ∧
    evictable <$> _node_pool c !! n = Some true ∧ _nr_unevicted c = 0 ∧
    insert 1 99 false c = Some c' ∧
    find_in_index 1 c' = Some n' ∧ n' ∈ _unevicted_list c' ∧ (n' ∉ _lru c') ∧
    evictable <$> _node_pool c' !! n' = Some false ∧ _nr_unevicted c' = 1.
Proof.
  exists (state_after 4 five_inserts). eexists _, 0, 1.
  split; [apply reachable_five_inserts|].
  split_and!; try (vm_compute; reflexivity).
  - compute_done.
  - compute_done.
  - compute_done.
Qed.

(** C7 (amended): when the key is in the index after the eviction check
    that [insert_check] starts with, [insert k v e] stores [v] in the
    node and touches it, and leaves the node's flag, the list it is on
    and the pinned counter as they were, for [e = true] and for
    [e = false]; and scenario 5: after [insert(1, a, false)] and
    [insert(1, b, true)], [get 1] returns [b] and the node is on the
    pinned list. *)
Theorem C7_overwrite_keeps_class :
  (∀ (Key Value : Type) (H : EqDecision Key) (c c1 : lru_cache Key Value)
     (k : Key) (v : Value) (e : bool) (n : nat) (nd : node_type Key Value),
     reachable c →
     make_room_for_insert c = Some c1 → find_in_index k c1 = Some n →
     _node_pool c1 !! n = Some nd →
     ∃ c' nd',
       insert k v e c = Some c' ∧ _node_pool c' !! n = Some nd' ∧
       key nd' = k ∧ value nd' = v ∧ evictable nd' = evictable nd ∧
       access_time nd' = _current_time c' ∧
       _current_time c' = wrap64 (_current_time c + 1) ∧
       (n ∈ _lru c' ↔ n ∈ _lru c1) ∧
       _unevicted_list c' = _unevicted_list c1 ∧
       _nr_unevicted c' = _nr_unevicted c ∧
       (get k c').1 = Some v) ∧
  (∀ (Value : Type) (value0 a b : Value),
     ∃ c n,
       run [Insert 1 a false; Insert 1 b true] (lru_cache_new 0 value0 4)
       = Some c ∧
       (get 1 c).1 = Some b ∧ find_in_index 1 c = Some n ∧
       n ∈ _unevicted_list c ∧ (n ∉ _lru c) ∧
       evictable <$> _node_pool c !! n = Some false ∧
       _nr_unevicted c = 1).
Proof.
  split.
  - intros. by eapply insert_overwrite_class.
  - intros. eexists _, 0. split; [vm_compute; reflexivity|].
    split_and!; try (vm_compute; reflexivity).
    + compute_done.
    + compute_done.
Qed.

(** ** The clock wraps around *)

Lemma get_pinned_at t :
  get 0 (pinned_at t) = (Some 0, pinned_at (wrap64 (t + 1))).
Proof.
  unfold get, find_in_index, pinned_at. simpl.
  unfold lru_touch, next_timestamp. simpl.
  unfold promotion_due. simpl. by rewrite andb_false_r.
Qed.

Lemma run_gets_pinned_at n : ∀ t,
  run (replicate n (Get 0)) (pinned_at (wrap64 t))
  = Some (pinned_at (wrap64 (t + Z.of_nat n))).
Proof.
  induction n as [|n IH]; intros t.
  - simpl. do 3 f_equal. lia.
  - change (run (replicate (S n) (Get 0)) (pinned_at (wrap64 t)))
      with (run (replicate n (Get 0)) (get 0 (pinned_at (wrap64 t))).2).
    rewrite get_pinned_at. simpl snd. rewrite IH. do 2 f_equal.
    unfold wrap64. rewrite <-Z.add_assoc, Zplus_mod_idemp_l. f_equal. lia.
Qed.

Lemma run_insert_then_gets n :
  run (Insert 0 0 false :: replicate n (Get 0)) (lru_cache_new 0 0 1)
  = Some (pinned_at (wrap64 (1 + Z.of_nat n))).
Proof.
  change (run (Insert 0 0 false :: replicate n (Get 0)) (lru_cache_new 0 0 1))
    with (run (replicate n (Get 0)) (pinned_at (wrap64 1))).
  apply run_gets_pinned_at.
Qed.

Lemma run_clock_wrap_ops :
  run clock_wrap_ops (lru_cache_new 0 0 1) = Some (pinned_at 0).
Proof.
  unfold clock_wrap_ops. rewrite run_insert_then_gets.
  rewrite Z2Nat.id by done. done.
Qed.

(** C10 (refuted as stated): after the [2^64] clock increments of
    [clock_wrap_ops] the clock and the access time of the pinned node
    are 0 again, below the node's promotion time 1; the last of these
    touches assigned the access time 0 to a node whose access time was
    [2^64 - 1]. *)
Lemma C10_counterexample :
  ∃ (c c_prev : lru_cache nat nat) n nd nd_prev,
    reachable c ∧ n ∈ _unevicted_list c ∧ _node_pool c !! n = Some nd ∧
    (access_time nd < promotion_time nd)%Z ∧
    ¬ (promotion_time nd ≤ access_time nd ≤ _current_time c)%Z ∧
    reachable c_prev ∧ exec (Get 0) c_prev = Some c ∧
    _node_pool c_prev !! n = Some nd_prev ∧
    (access_time nd < access_time nd_prev)%Z.
Proof.
  exists (pinned_at 0), (pinned_at (2 ^ 64 - 1)), 0.
  exists (Node 0 0 0 1 false), (Node 0 0 (2 ^ 64 - 1) 1 false). split_and!.
  - exists 0, 0, 1, clock_wrap_ops. split; [lia|]. apply run_clock_wrap_ops.
  - simpl. left.
  - done.
  - simpl. lia.
  - simpl. lia.
  - exists 0, 0, 1,
      (Insert 0 0 false :: replicate (Z.to_nat (2 ^ 64 - 2)) (Get 0)).
    split; [lia|]. rewrite run_insert_then_gets.
    rewrite Z2Nat.id by done. done.
  - unfold exec. by rewrite get_pinned_at.
  - done.
  - simpl. lia.
Qed.

(** ** The theorems at work on scenario 1 *)

Lemma C6_touch_policy_witness :
  reachable scenario1 ∧ find_in_index 1 scenario1 = Some 0 ∧
  touch_effect scenario1 0 (get 1 scenario1).2.
Proof.
  split; [reach_scenario1|]. split; [vm_compute; reflexivity|].
  apply (C6_touch_policy scenario1 1 0);
    [reach_scenario1 | vm_compute; reflexivity].
Defined.

Lemma C1_insert_on_missing_present_witness :
  reachable scenario1 ∧
  make_room_for_insert scenario1 = Some (after_room scenario1) ∧
  find_in_index 5 (after_room scenario1) = Some 4 ∧
  insert_on_missing 5 99 scenario1 = Some (after_room scenario1).
Proof.
  split; [reach_scenario1|]. split; [vm_compute; reflexivity|].
  split; [vm_compute; reflexivity|].
  apply (C1_insert_on_missing_present scenario1 5 99 (after_room scenario1) 4);
    [reach_scenario1 | vm_compute; reflexivity | vm_compute; reflexivity].
Defined.

Lemma C7_overwrite_keeps_class_witness :
  reachable scenario1 ∧
  make_room_for_insert scenario1 = Some (after_room scenario1) ∧
  find_in_index 5 (after_room scenario1) = Some 4 ∧
  _node_pool (after_room scenario1) !! 4 = Some (Node 5 15 5 5 true) ∧
  ∃ c' nd',
    insert 5 99 false scenario1 = Some c' ∧
    _node_pool c' !! 4 = Some nd' ∧ value nd' = 99 ∧ evictable nd' = true.
Proof.
  split; [reach_scenario1|]. split; [vm_compute; reflexivity|].
  split; [vm_compute; reflexivity|]. split; [vm_compute; reflexivity|].
  destruct (proj1 C7_overwrite_keeps_class nat nat _ scenario1
              (after_room scenario1) 5 99 false 4 (Node 5 15 5 5 true))
    as (c' & nd' & Hins & Hnd' & _ & Hval & Hev & _);
    [reach_scenario1 | vm_compute; reflexivity..|].
  exists c', nd'. auto.
Defined.

Lemma C10_timestamps_ordered_witness :
  0 < 4 ∧ (Z.of_nat (length five_inserts) < 2 ^ 64)%Z ∧
  run five_inserts (lru_cache_new 0 0 4) = Some scenario1 ∧
  ∀ n nd, n ∈ _lru scenario1 ++ _unevicted_list scenario1 →
    _node_pool scenario1 !! n = Some nd →
    (promotion_time nd ≤ access_time nd ≤ _current_time scenario1)%Z.
Proof.
  split; [lia|]. split; [vm_compute; reflexivity|].
  split; [vm_compute; reflexivity|].
  apply (C10_timestamps_ordered 0 0 4 five_inserts scenario1);
    [lia | vm_compute; reflexivity | vm_compute; reflexivity].
Defined.

(** The sequence of claim C2 at capacity 1: one pinned entry, then two
    evictable entries; the second evictable insertion is undefined. *)
Lemma C2_pool_exhausted_witness :
  0 < 1 ∧ NoDup ([(0, 10)].*1 ++ [(1, 11)].*1 ++ [2]) ∧
  run (inserts false [(0, 10)] ++ inserts true ([(1, 11)] ++ [(2, 12)]))
    (lru_cache_new 0 0 1) = None.
Proof.
  split; [lia|]. split; [compute_done|].
  apply (C2_pool_exhausted 0 0 1 [(0, 10)] [(1, 11)] 2 12 []);
    [lia | reflexivity | reflexivity | compute_done].
Defined.

(** * Further properties of the cache *)

Section lru_cache_more.
Context {Key Value : Type} `{!EqDecision Key}.
Implicit Types c : lru_cache Key Value.
Implicit Types n m : nat.
Implicit Types nd : node_type Key Value.

(** Induction over the runs that reach a state. *)
Lemma reachable_invariant (P : lru_cache Key Value → Prop) :
  (∀ key0 value0 capacity,
     0 < capacity → P (lru_cache_new key0 value0 capacity)) →
  (∀ o c c', cache_inv c → P c → exec o c = Some c' → P c') →
  ∀ c, reachable c → P c.
Proof.
  intros Hnew Hstep c (key0 & value0 & capacity & ops & Hpos & Hrun).
  assert (∀ ops c0, cache_inv c0 → P c0 → run ops c0 = Some c → P c) as Hgen.
  { clear ops Hrun. intros ops. induction ops as [|o ops IH]; intros c0 Hinv HP.
    - simpl. by intros [= <-].
    - simpl. destruct (exec o c0) as [c1|] eqn:Hexec; [|done]. simpl.
      apply IH; [by eapply cache_inv_exec|by eapply Hstep]. }
  eapply Hgen; [|by apply Hnew|done]. by apply cache_inv_new.
Qed.

(** What the eviction check does, in one statement for both outcomes of
    its guard: [ev] is the evicted tail, empty when the guard is false. *)
Lemma make_room_spec c c1 :
  cache_inv c → make_room_for_insert c = Some c1 →
  ∃ ev,
    _lru c = _lru c1 ++ ev ∧
    _index c1 = filter (λ m, m ∉ ev) (_index c) ∧
    _free_nodes c1 = ev ++ _free_nodes c ∧
    length ev = (if eviction_due c then _batch_evict_size c else 0) ∧
    _node_pool c1 = _node_pool c ∧ _current_time c1 = _current_time c ∧
    _unevicted_list c1 = _unevicted_list c ∧
    _nr_unevicted c1 = _nr_unevicted c ∧ _max_size c1 = _max_size c ∧
    _batch_evict_size c1 = _batch_evict_size c.
Proof.
  intros Hinv Hroom. destruct (eviction_due c) eqn:Hdue.
  - destruct (make_room_due _ Hinv Hdue) as (keep & ev & Hlru & Hev & Heq).
    rewrite Hroom in Heq. injection Heq as ->. exists ev.
    rewrite Hlru. by split_and!.
  - rewrite (make_room_not_due _ Hdue) in Hroom. injection Hroom as ->.
    exists []. rewrite app_nil_r. split_and!; try done.
    symmetry. apply filter_all. intros x _. apply not_elem_of_nil.
Qed.

(** What [do_insert] does when a free node is available. *)
Lemma do_insert_spec k v e c c' :
  cache_inv c → do_insert k v e c = Some c' →
  ∃ n rest,
    _free_nodes c = n :: rest ∧ _free_nodes c' = rest ∧
    (n ∉ _index c) ∧ _index c' = n :: _index c ∧
    _lru c' = (if e then n :: _lru c else _lru c) ∧
    _unevicted_list c'
    = (if e then _unevicted_list c else n :: _unevicted_list c) ∧
    _nr_unevicted c' = _nr_unevicted c ∧ _max_size c' = _max_size c ∧
    _current_time c' = wrap64 (_current_time c + 1) ∧
    _node_pool c' !! n
    = Some (Node k v (wrap64 (_current_time c + 1))
              (wrap64 (_current_time c + 1)) e) ∧
    ∀ m, m ≠ n → _node_pool c' !! m = _node_pool c !! m.
Proof.
  intros Hinv. pose proof (cache_inv_NoDup _ Hinv) as Hnodup.
  unfold do_insert, allocate_node.
  destruct (_free_nodes c) as [|n rest] eqn:Hfree; [done|]. simpl.
  intros [= <-]. exists n, rest.
  assert (is_Some (_node_pool c !! n)) as [nd0 Hnd0].
  { apply (cache_inv_node _ _ Hinv). rewrite Hfree. left. }
  apply NoDup_cons in Hnodup as [Hfresh _].
  split_and!; try (by destruct e).
  - rewrite (inv_index _ Hinv). intros Hin. apply Hfresh.
    rewrite elem_of_app. by right.
  - destruct e; simpl; by rewrite !list_lookup_alter_eq, Hnd0.
  - intros m Hm. destruct e; simpl; by rewrite !list_lookup_alter_ne.
Qed.

(** ** Keys are unique in the index *)

Lemma find_in_index_None k c m :
  find_in_index k c = None → m ∈ _index c → node_key c m ≠ Some k.
Proof.
  unfold find_in_index. intros Hnone Hm Hkey.
  apply list_elem_of_In in Hm.
  pose proof (find_none _ _ Hnone m Hm) as Hhas.
  unfold has_key, node_key in *.
  destruct (_node_pool c !! m) as [nd|]; [|done].
  simpl in Hkey. injection Hkey as Hkey.
  by apply bool_decide_eq_false in Hhas.
Qed.

Lemma find_in_index_hit k c m :
  m ∈ _index c → node_key c m = Some k → is_Some (find_in_index k c).
Proof.
  intros Hm Hkey. destruct (find_in_index k c) eqn:Hfind; [by eexists|].
  by destruct (find_in_index_None _ _ _ Hfind Hm).
Qed.

Lemma find_in_index_key k c n :
  find_in_index k c = Some n → n ∈ _index c ∧ node_key c n = Some k.
Proof.
  intros (Hn & nd & Hnd & Hk)%find_in_index_Some. split; [done|].
  unfold node_key. by rewrite Hnd, <-Hk.
Qed.

(** With unique keys, lookup finds the node that carries the key. *)
Lemma find_in_index_unique k c n :
  keys_unique c →
  find_in_index k c = Some n ↔ n ∈ _index c ∧ node_key c n = Some k.
Proof.
  intros Huniq. split; [apply find_in_index_key|].
  intros [Hn Hkey].
  destruct (find_in_index_hit _ _ _ Hn Hkey) as [m Hfind].
  rewrite Hfind. f_equal.
  apply find_in_index_key in Hfind as [Hm Hkey'].
  apply Huniq; [done..|]. by rewrite Hkey.
Qed.

Lemma keys_unique_sub c c' :
  (∀ n, n ∈ _index c' → n ∈ _index c) →
  (∀ n, n ∈ _index c' → node_key c' n = node_key c n) →
  keys_unique c → keys_unique c'.
Proof.
  intros Hsub Hkey Huniq n m Hn Hm Heq.
  apply Huniq; [by apply Hsub..|]. by rewrite <-!Hkey.
Qed.

Lemma keys_unique_room c c1 :
  cache_inv c → make_room_for_insert c = Some c1 →
  keys_unique c → keys_unique c1.
Proof.
  intros Hinv Hroom.
  destruct (make_room_spec _ _ Hinv Hroom)
    as (ev & _ & Hidx & _ & _ & Hpool & _).
  apply keys_unique_sub.
  - intros n. rewrite Hidx, list_elem_of_filter. tauto.
  - intros n _. unfold node_key. by rewrite Hpool.
Qed.

Lemma keys_unique_touch c n :
  keys_unique c → keys_unique (lru_touch n c).
Proof.
  destruct (lru_touch_frame n c) as (Hidx & _).
  apply keys_unique_sub.
  - intros m. by rewrite Hidx.
  - intros m _. apply lru_touch_key.
Qed.

Lemma keys_unique_value c n v :
  keys_unique c → keys_unique (update_node (with_value v) n c).
Proof.
  apply keys_unique_sub; [done|].
  intros m _. unfold node_key, update_node. simpl. by rewrite field_alter.
Qed.

Lemma keys_unique_do_insert k v e c c' :
  cache_inv c → find_in_index k c = None → do_insert k v e c = Some c' →
  keys_unique c → keys_unique c'.
Proof.
  intros Hinv Hnone Hins Huniq.
  destruct (do_insert_spec _ _ _ _ _ Hinv Hins)
    as (n0 & rest & _ & _ & Hfresh & Hidx & _ & _ & _ & _ & _ & Hn0 & Hother).
  assert (∀ m, m ∈ _index c → node_key c' m = node_key c m) as Hkeep.
  { intros m Hm. unfold node_key. rewrite Hother; [done|]. by intros ->. }
  assert (∀ m, m ∈ _index c → node_key c' m ≠ node_key c' n0) as Hdiff.
  { intros m Hm. rewrite (Hkeep m Hm). unfold node_key at 2. rewrite Hn0.
    simpl. by apply find_in_index_None. }
  intros n m. rewrite Hidx, !elem_of_cons.
  intros [-> | Hn] [-> | Hm] Heq; try done.
  - by destruct (Hdiff m Hm).
  - by destruct (Hdiff n Hn).
  - apply Huniq; [done..|]. by rewrite <-!Hkeep.
Qed.

Lemma keys_unique_exec o c c' :
  cache_inv c → keys_unique c → exec o c = Some c' → keys_unique c'.
Proof.
  intros Hinv Huniq.
  destruct (make_room_inv _ Hinv) as (c1 & Hroom & Hinv1 & _).
  pose proof (keys_unique_room _ _ Hinv Hroom Huniq) as Huniq1.
  destruct o as [k|k v|k v e]; simpl.
  - intros [= <-]. unfold get. case_match; [|done].
    by apply keys_unique_touch.
  - unfold insert_on_missing, insert_check. rewrite Hroom. simpl.
    destruct (find_in_index k c1) eqn:Hfind.
    + by intros [= <-].
    + intros Hins. by eapply keys_unique_do_insert.
  - unfold insert, insert_check. rewrite Hroom. simpl.
    destruct (find_in_index k c1) eqn:Hfind.
    + intros [= <-]. by apply keys_unique_touch, keys_unique_value.
    + destruct (do_insert k v e c1) as [c2|] eqn:Hins; [|done]. simpl.
      intros [= <-].
      pose proof (keys_unique_do_insert _ _ _ _ _ Hinv1 Hfind Hins Huniq1).
      by destruct e.
Qed.

Lemma reachable_keys_unique c : reachable c → keys_unique c.
Proof.
  revert c. apply reachable_invariant.
  - intros key0 value0 capacity _ a b Ha. by apply not_elem_of_nil in Ha.
  - intros o c c' Hinv Huniq Hexec. by eapply keys_unique_exec.
Qed.

(** In every reachable state no key is linked twice in the index, and a
    lookup succeeds exactly for the keys of the linked nodes, returning
    the one node that carries the key. *)
Theorem index_keys_unique c k n :
  reachable c →
  keys_unique c ∧ NoDup (_index c) ∧
  (find_in_index k c = Some n ↔ n ∈ _index c ∧ node_key c n = Some k).
Proof.
  intros Hreach. pose proof (reachable_keys_unique _ Hreach) as Huniq.
  split; [done|]. split; [|by apply find_in_index_unique].
  pose proof (reachable_inv _ Hreach) as Hinv.
  rewrite (inv_index _ Hinv).
  pose proof (cache_inv_NoDup _ Hinv) as Hnodup.
  by apply NoDup_app in Hnodup as (_ & _ & Hnodup).
Qed.

(** ** What [get] returns and what it leaves alone *)

(** [get] returns the value of the node found: the touch does not
    change it. *)
Lemma get_fst k c :
  (get k c).1 = find_in_index k c ≫= node_value c.
Proof.
  unfold get. destruct (find_in_index k c) as [n|]; [|done]. simpl.
  apply lru_touch_value.
Qed.

Lemma get_snd k c :
  (get k c).2 = from_option (λ n, lru_touch n c) c (find_in_index k c).
Proof. unfold get. by destruct (find_in_index k c). Qed.

Lemma find_in_index_touch k n c :
  find_in_index k (lru_touch n c) = find_in_index k c.
Proof.
  destruct (lru_touch_frame n c) as (Hidx & _).
  apply find_in_index_ext; [done|]. intros m. apply lru_touch_key.
Qed.

Lemma lru_touch_lru_perm c n :
  cache_inv c → n ∈ _index c →
  _lru (lru_touch n c) ≡ₚ _lru c ∧
  _unevicted_list (lru_touch n c) = _unevicted_list c.
Proof.
  intros Hinv Hn.
  destruct (lru_touch_effect _ _ Hinv Hn)
    as (nd & nd' & Hnd & _ & _ & _ & _ & _ & Hun & Hlru).
  split; [|done]. case_decide as Hdue; destruct Hlru as [-> _]; [|done].
  destruct Hdue as [Hev _].
  pose proof (cache_inv_NoDup _ Hinv) as Hnodup.
  apply NoDup_app in Hnodup as (_ & _ & Hnodup).
  apply NoDup_app in Hnodup as (_ & _ & Hnodup).
  apply move_to_front; [done|].
  rewrite (inv_index _ Hinv) in Hn.
  apply elem_of_app in Hn as [Hn|Hn]; [|done].
  apply (inv_unevicted_flag _ Hinv) in Hn. rewrite Hnd in Hn.
  simpl in Hn. congruence.
Qed.

(** [get] never inserts and never evicts: it keeps the index, the free
    stack, the pinned list and its counter, reorders the evictable list
    at most, changes no key and no value, and so does not change what
    any later [get] returns. *)
Theorem get_is_read_only c k :
  reachable c →
  let c' := (get k c).2 in
  _index c' = _index c ∧ _free_nodes c' = _free_nodes c ∧
  _unevicted_list c' = _unevicted_list c ∧
  _nr_unevicted c' = _nr_unevicted c ∧
  _lru c' ≡ₚ _lru c ∧
  (∀ m, node_key c' m = node_key c m ∧ node_value c' m = node_value c m) ∧
  ∀ k', (get k' c').1 = (get k' c).1.
Proof.
  intros Hinv%reachable_inv. simpl. rewrite get_snd.
  destruct (find_in_index k c) as [n|] eqn:Hfind; simpl; [|done].
  destruct (lru_touch_frame n c) as (Hidx & Hfree & Hnr & _).
  apply find_in_index_Some in Hfind as [Hn _].
  destruct (lru_touch_lru_perm _ _ Hinv Hn) as [Hperm Hun].
  split_and!; try done.
  - intros m. split; [apply lru_touch_key|apply lru_touch_value].
  - intros k'. rewrite !get_fst, find_in_index_touch.
    destruct (find_in_index k' c) as [m|]; [|done]. simpl.
    apply lru_touch_value.
Qed.

(** ** The two paths of an insertion *)

Lemma has_key_node_key c k n :
  has_key c k n = true ↔ node_key c n = Some k.
Proof.
  unfold has_key, node_key. destruct (_node_pool c !! n) as [nd|]; simpl.
  - rewrite bool_decide_eq_true. split; [by intros ->|by intros [= ->]].
  - split; intros; done.
Qed.

Lemma find_in_index_head k c n l :
  _index c = n :: l → node_key c n = Some k → find_in_index k c = Some n.
Proof.
  intros Hidx Hkey%has_key_node_key. unfold find_in_index.
  rewrite Hidx. simpl. by rewrite Hkey.
Qed.

Lemma find_ext_in {A} (f g : A → bool) (l : list A) :
  (∀ x, x ∈ l → f x = g x) → find f l = find g l.
Proof.
  induction l as [|a l IH]; intros Hfg; [done|]. simpl.
  rewrite (Hfg a) by left. rewrite IH; [done|].
  intros x Hx. apply Hfg. by right.
Qed.

Lemma insert_cases k v e c c' :
  cache_inv c → insert k v e c = Some c' →
  ∃ c1, make_room_for_insert c = Some c1 ∧ cache_inv c1 ∧
    ((∃ n, find_in_index k c1 = Some n ∧
           c' = lru_touch n (update_node (with_value v) n c1)) ∨
     (find_in_index k c1 = None ∧
      ∃ c2, do_insert k v e c1 = Some c2 ∧
            c' = if e then c2
                 else set_nr_unevicted (S (_nr_unevicted c2)) c2)).
Proof.
  intros Hinv. destruct (make_room_inv _ Hinv) as (c1 & Hroom & Hinv1 & _).
  unfold insert, insert_check. rewrite Hroom. simpl.
  exists c1. split; [done|]. split; [done|].
  destruct (find_in_index k c1) as [n|].
  - left. exists n. split; [done|]. congruence.
  - right. split; [done|].
    destruct (do_insert k v e c1) as [c2|]; [|done]. simpl in *.
    exists c2. split; [done|]. congruence.
Qed.

Lemma insert_on_missing_cases k v c c' :
  cache_inv c → insert_on_missing k v c = Some c' →
  ∃ c1, make_room_for_insert c = Some c1 ∧ cache_inv c1 ∧
    ((∃ n, find_in_index k c1 = Some n ∧ c' = c1) ∨
     (find_in_index k c1 = None ∧ do_insert k v true c1 = Some c')).
Proof.
  intros Hinv. destruct (make_room_inv _ Hinv) as (c1 & Hroom & Hinv1 & _).
  unfold insert_on_missing, insert_check. rewrite Hroom. simpl.
  exists c1. split; [done|]. split; [done|].
  destruct (find_in_index k c1) as [n|].
  - left. exists n. split; [done|]. congruence.
  - by right.
Qed.

(** After the insertion of a new node the lookup of its key finds it,
    and the lookup of another key goes on as before. *)
Lemma do_insert_lookup k v e c c2 :
  cache_inv c → do_insert k v e c = Some c2 →
  (find_in_index k c2 ≫= node_value c2) = Some v ∧
  ∀ k', k' ≠ k →
    (find_in_index k' c2 ≫= node_value c2)
    = (find_in_index k' c ≫= node_value c).
Proof.
  intros Hinv Hins.
  destruct (do_insert_spec _ _ _ _ _ Hinv Hins)
    as (n0 & rest & _ & _ & Hfresh & Hidx & _ & _ & _ & _ & _ & Hn0 & Hother).
  assert (node_key c2 n0 = Some k) as Hkey0.
  { unfold node_key. by rewrite Hn0. }
  split.
  - rewrite (find_in_index_head _ _ _ _ Hidx Hkey0). simpl.
    unfold node_value. by rewrite Hn0.
  - intros k' Hk'.
    assert (find_in_index k' c2 = find_in_index k' c) as Hfind.
    { unfold find_in_index. rewrite Hidx. simpl.
      destruct (has_key c2 k' n0) eqn:Hhas.
      { apply has_key_node_key in Hhas. congruence. }
      apply find_ext_in. intros m Hm. unfold has_key.
      rewrite Hother; [done|]. by intros ->. }
    rewrite Hfind. destruct (find_in_index k' c) as [m|] eqn:Hm; [|done].
    simpl. unfold node_value. rewrite Hother; [done|].
    apply find_in_index_key in Hm as [Hm _]. by intros ->.
Qed.

(** The same for the overwrite of a linked node. *)
Lemma overwrite_lookup k v n c :
  find_in_index k c = Some n →
  let c' := lru_touch n (update_node (with_value v) n c) in
  (find_in_index k c' ≫= node_value c') = Some v ∧
  ∀ k', k' ≠ k →
    (find_in_index k' c' ≫= node_value c')
    = (find_in_index k' c ≫= node_value c).
Proof.
  intros Hfind. simpl.
  pose proof (find_in_index_Some _ _ _ Hfind) as (_ & nd & Hnd & Hk).
  assert (∀ k', find_in_index k'
            (lru_touch n (update_node (with_value v) n c))
          = find_in_index k' c) as Hsame.
  { intros k'. rewrite find_in_index_touch.
    apply find_in_index_ext; [done|].
    intros m. unfold update_node. simpl. by rewrite field_alter. }
  split.
  - rewrite Hsame, Hfind. simpl. unfold node_value.
    rewrite lru_touch_value. unfold update_node. simpl.
    by rewrite list_lookup_alter_eq, Hnd.
  - intros k' Hk'. rewrite Hsame.
    destruct (find_in_index k' c) as [m|] eqn:Hm; [|done]. simpl.
    unfold node_value. rewrite lru_touch_value. unfold update_node. simpl.
    rewrite list_lookup_alter_ne; [done|]. intros ->.
    apply find_in_index_Some in Hm as (_ & nd' & Hnd' & Hk'').
    congruence.
Qed.

(** How the eviction check changes what a lookup returns: nothing for
    a key whose node stays linked, a miss for a key whose node is
    evicted. *)
Lemma room_lookup k c c1 :
  cache_inv c → keys_unique c → make_room_for_insert c = Some c1 →
  match find_in_index k c with
  | Some m =>
      (m ∈ _index c1 →
       (find_in_index k c1 ≫= node_value c1)
       = (find_in_index k c ≫= node_value c)) ∧
      (m ∉ _index c1 → find_in_index k c1 = None)
  | None => find_in_index k c1 = None
  end.
Proof.
  intros Hinv Huniq Hroom.
  pose proof (keys_unique_room _ _ Hinv Hroom Huniq) as Huniq1.
  destruct (make_room_spec _ _ Hinv Hroom)
    as (ev & _ & Hidx & _ & _ & Hpool & _).
  assert (∀ m, node_key c1 m = node_key c m) as Hkey.
  { intros m. unfold node_key. by rewrite Hpool. }
  assert (∀ m, m ∈ _index c1 → m ∈ _index c) as Hsub.
  { intros m. rewrite Hidx, list_elem_of_filter. tauto. }
  destruct (find_in_index k c) as [m|] eqn:Hfind.
  - pose proof (find_in_index_key _ _ _ Hfind) as [Hm Hkm]. split.
    + intros Hm1.
      assert (find_in_index k c1 = Some m) as ->.
      { apply find_in_index_unique; [done|]. by rewrite Hkey. }
      simpl. unfold node_value. by rewrite Hpool.
    + intros Hm1. destruct (find_in_index k c1) as [m'|] eqn:Hfind1; [|done].
      apply find_in_index_key in Hfind1 as [Hm' Hkm'].
      destruct Hm1. replace m with m'; [done|].
      apply Huniq; [by apply Hsub|done|]. by rewrite <-Hkey, Hkm', Hkm.
  - destruct (find_in_index k c1) as [m'|] eqn:Hfind1; [|done].
    apply find_in_index_key in Hfind1 as [Hm' Hkm'].
    destruct (find_in_index_None _ _ m' Hfind); [by apply Hsub|].
    by rewrite <-Hkey.
Qed.

Lemma insert_get_value c k v e c' :
  cache_inv c → insert k v e c = Some c' → (get k c').1 = Some v.
Proof.
  intros Hinv Hins. rewrite get_fst.
  destruct (insert_cases _ _ _ _ _ Hinv Hins)
    as (c1 & _ & Hinv1 & [(n & Hfind & ->)|(Hnone & c2 & Hdo & ->)]).
  - by apply overwrite_lookup.
  - destruct (do_insert_lookup _ _ _ _ _ Hinv1 Hdo) as [Hhit _].
    by destruct e.
Qed.

(** Round trip: whenever [insert k v e] is defined, a [get k] that
    follows returns [v], whether the key was overwritten or inserted
    anew and whatever was evicted to make room. *)
Theorem insert_then_get c k v e c' :
  reachable c → insert k v e c = Some c' → (get k c').1 = Some v.
Proof. intros Hinv%reachable_inv. by apply insert_get_value. Qed.

(** Isolation: [insert k v e] changes the result of [get] for another
    key only through the eviction check: the other key keeps its value
    when its node stays linked, and misses when its node is in the
    evicted batch. *)
Theorem insert_keeps_other_keys c k v e c' c1 k' :
  reachable c → insert k v e c = Some c' →
  make_room_for_insert c = Some c1 → k' ≠ k →
  (get k' c').1 = (get k' c1).1 ∧
  match find_in_index k' c with
  | Some m =>
      (m ∈ _index c1 → (get k' c').1 = (get k' c).1) ∧
      (m ∉ _index c1 → (get k' c').1 = None)
  | None => (get k' c').1 = None
  end.
Proof.
  intros Hreach Hins Hroom Hk'.
  pose proof (reachable_inv _ Hreach) as Hinv.
  pose proof (reachable_keys_unique _ Hreach) as Huniq.
  assert ((get k' c').1 = (get k' c1).1) as Hsame.
  { rewrite !get_fst.
    destruct (insert_cases _ _ _ _ _ Hinv Hins)
      as (c1' & Hroom' & Hinv1 & Hcases).
    assert (c1' = c1) as -> by congruence.
    destruct Hcases as [(n & Hfind & ->)|(Hnone & c2 & Hdo & ->)].
    - by apply (overwrite_lookup k v n c1 Hfind).
    - destruct (do_insert_lookup _ _ _ _ _ Hinv1 Hdo) as [_ Hother].
      rewrite <-(Hother k' Hk'). by destruct e. }
  split; [done|]. rewrite Hsame, !get_fst.
  pose proof (room_lookup k' _ _ Hinv Huniq Hroom) as Hlook.
  destruct (find_in_index k' c) as [m|].
  - destruct Hlook as [Hin Hout]. split; [done|].
    intros Hm. by rewrite (Hout Hm).
  - by rewrite Hlook.
Qed.

(** ** The size of the evictable list *)

Lemma batch_positive c : cache_inv c → 0 < _batch_evict_size c.
Proof.
  intros Hinv. rewrite (inv_batch _ Hinv), (inv_soft _ Hinv).
  pose proof (inv_capacity _ Hinv).
  pose proof (Nat.div_lt (_max_size c) 2). lia.
Qed.

Lemma room_lru_le c c1 :
  cache_inv c → length (_lru c) ≤ S (_max_size c) →
  make_room_for_insert c = Some c1 → length (_lru c1) ≤ _max_size c1.
Proof.
  intros Hinv Hbound Hroom.
  destruct (make_room_spec _ _ Hinv Hroom)
    as (ev & Hlru & _ & _ & Hev & _ & _ & _ & _ & Hmax & _).
  rewrite Hmax. rewrite Hlru, length_app in Hbound.
  destruct (eviction_due c) eqn:Hdue.
  - pose proof (batch_positive _ Hinv). lia.
  - apply length_zero_iff_nil in Hev as ->. rewrite app_nil_r in Hlru.
    rewrite <-Hlru. destruct (decide (length (_lru c) ≤ _max_size c)); [done|].
    assert (eviction_due c = true); [|congruence].
    apply eviction_due_iff, eviction_due_lru; [done|lia].
Qed.

Lemma exec_max_size o c c' :
  cache_inv c → exec o c = Some c' → _max_size c' = _max_size c.
Proof.
  intros Hinv. destruct o as [k|k v|k v e]; simpl.
  - intros [= <-]. rewrite get_snd.
    destruct (find_in_index k c) as [n|]; simpl; [|done].
    by destruct (lru_touch_frame n c) as (_ & _ & _ & -> & _).
  - intros Hins.
    destruct (insert_on_missing_cases _ _ _ _ Hinv Hins)
      as (c1 & Hroom & Hinv1 & Hcases).
    destruct (make_room_spec _ _ Hinv Hroom)
      as (ev & _ & _ & _ & _ & _ & _ & _ & _ & Hmax & _).
    destruct Hcases as [(n & _ & ->)|[_ Hdo]]; [done|].
    destruct (do_insert_spec _ _ _ _ _ Hinv1 Hdo)
      as (? & ? & _ & _ & _ & _ & _ & _ & _ & Hmax' & _).
    congruence.
  - intros Hins.
    destruct (insert_cases _ _ _ _ _ Hinv Hins)
      as (c1 & Hroom & Hinv1 & Hcases).
    destruct (make_room_spec _ _ Hinv Hroom)
      as (ev & _ & _ & _ & _ & _ & _ & _ & _ & Hmax & _).
    destruct Hcases as [(n & _ & ->)|(_ & c2 & Hdo & ->)].
    + by destruct (lru_touch_frame n (update_node (with_value v) n c1))
        as (_ & _ & _ & -> & _).
    + destruct (do_insert_spec _ _ _ _ _ Hinv1 Hdo)
        as (? & ? & _ & _ & _ & _ & _ & _ & _ & Hmax' & _).
      destruct e; simpl; congruence.
Qed.

Lemma run_max_size ops c c' :
  cache_inv c → run ops c = Some c' → _max_size c' = _max_size c.
Proof.
  revert c. induction ops as [|o ops IH]; intros c Hinv; simpl.
  - by intros [= <-].
  - destruct (exec o c) as [c1|] eqn:Hexec; [|done]. simpl. intros Hrun.
    rewrite (IH c1); [by eapply exec_max_size|by eapply cache_inv_exec|done].
Qed.

(** The capacity of every state of a run is the one the constructor was
    given. *)
Lemma run_capacity (key0 : Key) (value0 : Value) capacity ops c :
  0 < capacity → run ops (lru_cache_new key0 value0 capacity) = Some c →
  reachable c ∧ cache_inv c ∧ _max_size c = capacity.
Proof.
  intros Hpos Hrun.
  pose proof (cache_inv_new key0 value0 capacity Hpos) as Hinv0.
  split; [by exists key0, value0, capacity, ops|].
  split; [by eapply cache_inv_run|].
  by rewrite (run_max_size _ _ _ Hinv0 Hrun).
Qed.

Lemma lru_bound_exec o c c' :
  cache_inv c → length (_lru c) ≤ S (_max_size c) → exec o c = Some c' →
  length (_lru c') ≤ S (_max_size c').
Proof.
  intros Hinv Hbound Hexec.
  rewrite (exec_max_size _ _ _ Hinv Hexec).
  destruct o as [k|k v|k v e]; simpl in Hexec.
  - injection Hexec as <-. rewrite get_snd.
    destruct (find_in_index k c) as [n|] eqn:Hfind; simpl; [|done].
    apply find_in_index_Some in Hfind as [Hn _].
    destruct (lru_touch_lru_perm _ _ Hinv Hn) as [Hperm _].
    by rewrite Hperm.
  - destruct (insert_on_missing_cases _ _ _ _ Hinv Hexec)
      as (c1 & Hroom & Hinv1 & Hcases).
    pose proof (room_lru_le _ _ Hinv Hbound Hroom) as Hle.
    destruct (make_room_spec _ _ Hinv Hroom)
      as (ev & _ & _ & _ & _ & _ & _ & _ & _ & Hmax & _).
    destruct Hcases as [(n & _ & ->)|[_ Hdo]]; [lia|].
    destruct (do_insert_spec _ _ _ _ _ Hinv1 Hdo)
      as (? & ? & _ & _ & _ & _ & -> & _). simpl. lia.
  - destruct (insert_cases _ _ _ _ _ Hinv Hexec)
      as (c1 & Hroom & Hinv1 & Hcases).
    pose proof (room_lru_le _ _ Hinv Hbound Hroom) as Hle.
    destruct (make_room_spec _ _ Hinv Hroom)
      as (ev & _ & _ & _ & _ & _ & _ & _ & _ & Hmax & _).
    destruct Hcases as [(n & Hfind & ->)|(_ & c2 & Hdo & ->)].
    + apply find_in_index_Some in Hfind as [Hn _].
      destruct (lru_touch_lru_perm (update_node (with_value v) n c1) n)
        as [Hperm _]; [by apply cache_inv_update_node|done|].
      rewrite Hperm. simpl. lia.
    + destruct (do_insert_spec _ _ _ _ _ Hinv1 Hdo)
        as (? & ? & _ & _ & _ & _ & Hlru & _).
      destruct e; simpl; rewrite Hlru; simpl; lia.
Qed.

Lemma reachable_lru_bound c :
  reachable c → length (_lru c) ≤ S (_max_size c).
Proof.
  revert c. apply reachable_invariant.
  - intros. simpl. lia.
  - intros o c c'. apply lru_bound_exec.
Qed.

(** In every reachable state the evictable list holds at most
    [capacity + 1] nodes, and at most [capacity] right after the
    eviction check, so at least [capacity - pinned_count] nodes are
    free when a node is allocated. *)
Theorem evictable_list_bounded c c1 :
  reachable c → make_room_for_insert c = Some c1 →
  length (_lru c) ≤ _max_size c + 1 ∧
  length (_lru c1) ≤ _max_size c ∧
  _max_size c ≤ length (_free_nodes c1) + _nr_unevicted c.
Proof.
  intros Hreach Hroom. pose proof (reachable_inv _ Hreach) as Hinv.
  pose proof (reachable_lru_bound _ Hreach) as Hbound.
  pose proof (room_lru_le _ _ Hinv Hbound Hroom) as Hle.
  destruct (make_room_inv _ Hinv)
    as (c1' & Hroom' & Hinv1 & Hmax & _ & _ & _ & _ & Hun & Hnr).
  assert (c1' = c1) as -> by congruence.
  pose proof (cache_inv_lengths _ Hinv1) as Hlen.
  rewrite <-Hnr, (inv_nr _ Hinv1). lia.
Qed.

(** With a pool of [2 * capacity] nodes, an insertion finds a free node
    as long as fewer than [capacity] entries are pinned. *)
Lemma insert_is_Some c k v e :
  reachable c → _nr_unevicted c < _max_size c →
  is_Some (insert k v e c) ∧ is_Some (insert_on_missing k v c).
Proof.
  intros Hreach Hpinned. pose proof (reachable_inv _ Hreach) as Hinv.
  pose proof (reachable_lru_bound _ Hreach) as Hbound.
  destruct (make_room_inv _ Hinv)
    as (c1 & Hroom & Hinv1 & Hmax & _ & _ & _ & _ & Hun & Hnr).
  pose proof (room_lru_le _ _ Hinv Hbound Hroom) as Hle.
  pose proof (cache_inv_lengths _ Hinv1) as Hlen.
  assert (∀ e', is_Some (do_insert k v e' c1)) as Hdo.
  { intros e'. unfold do_insert, allocate_node.
    destruct (_free_nodes c1) as [|n0 rest] eqn:Hfree; [|by eexists].
    rewrite (inv_nr _ Hinv1) in Hnr. simpl in Hlen. lia. }
  unfold insert, insert_on_missing, insert_check. rewrite Hroom. simpl.
  destruct (find_in_index k c1); [by split; eexists|].
  split; [|done]. destruct (Hdo e) as [c2 ->]. by eexists.
Qed.

(** For a cache built with a capacity below [2^53] (so that the pool
    holds [2 * capacity] nodes), [insert] and [insert_on_missing] are
    defined in every state of a run in which fewer than [capacity]
    entries are pinned. *)
Theorem insert_defined (key0 : Key) (value0 : Value) capacity ops c k v e :
  0 < capacity → (Z.of_nat capacity < 2 ^ 53)%Z →
  run ops (lru_cache_new key0 value0 capacity) = Some c →
  _nr_unevicted c < capacity →
  is_Some (insert k v e c) ∧ is_Some (insert_on_missing k v c).
Proof.
  intros Hpos _ Hrun Hpinned.
  destruct (run_capacity _ _ _ _ _ Hpos Hrun) as (Hreach & _ & Hmax).
  apply insert_is_Some; [done|]. by rewrite Hmax.
Qed.

(** One batch is always enough: in the state that the eviction check
    leaves, its guard is false, so a second check right after it
    changes nothing. *)
Theorem eviction_check_settles c c1 :
  reachable c → make_room_for_insert c = Some c1 →
  eviction_due c1 = false ∧ make_room_for_insert c1 = Some c1.
Proof.
  intros Hreach Hroom. pose proof (reachable_inv _ Hreach) as Hinv.
  destruct (make_room_inv _ Hinv) as (c1' & Hroom' & Hinv1 & _).
  assert (c1' = c1) as -> by congruence.
  pose proof (room_lru_le _ _ Hinv (reachable_lru_bound _ Hreach) Hroom).
  pose proof (lru_not_due _ Hinv1 ltac:(done)) as Hdue.
  split; [done|]. by apply make_room_not_due.
Qed.

(** ** The MRU head survives the eviction check *)

Lemma room_keeps_head c c1 n l :
  cache_inv c → _lru c = n :: l → make_room_for_insert c = Some c1 →
  (∃ l', _lru c1 = n :: l') ∧ n ∈ _index c1.
Proof.
  intros Hinv Hhead Hroom.
  destruct (make_room_spec _ _ Hinv Hroom)
    as (ev & Hlru & Hidx & _ & Hev & _).
  pose proof (cache_inv_NoDup _ Hinv) as Hnodup.
  apply NoDup_app in Hnodup as (_ & _ & Hnodup).
  apply NoDup_app in Hnodup as (_ & _ & Hnodup).
  rewrite Hlru in Hnodup, Hhead.
  destruct (_lru c1) as [|n' l'] eqn:Hkeep.
  - exfalso. simpl in Hhead. destruct (eviction_due c) eqn:Hdue.
    + pose proof (proj1 (eviction_due_iff c) Hdue) as Hlt.
      apply eviction_due_lru in Hlt; [|done].
      pose proof (batch_le_capacity _ Hinv).
      rewrite Hlru in Hlt. simpl in Hlt. lia.
    + apply length_zero_iff_nil in Hev. congruence.
  - simpl in Hhead. injection Hhead as -> Hl. split; [by exists l'|].
    rewrite Hidx, list_elem_of_filter. split.
    + apply NoDup_app in Hnodup as (_ & Hdisj & _). apply Hdisj. left.
    + rewrite (inv_index _ Hinv), Hlru, !elem_of_app. right. left. left.
Qed.

(** The eviction check never removes the node at the MRU end of the
    evictable list: it stays at the head of the list and in the index. *)
Theorem eviction_spares_mru_head c c1 n l :
  reachable c → _lru c = n :: l → make_room_for_insert c = Some c1 →
  (∃ l', _lru c1 = n :: l') ∧ n ∈ _index c1 ∧
  ∀ k, node_key c n = Some k → find_in_index k c1 = Some n.
Proof.
  intros Hreach Hhead Hroom. pose proof (reachable_inv _ Hreach) as Hinv.
  destruct (room_keeps_head _ _ _ _ Hinv Hhead Hroom) as [Hkeep Hn].
  split; [done|]. split; [done|]. intros k Hkey.
  apply find_in_index_unique.
  - eapply keys_unique_room; [done..|]. by apply reachable_keys_unique.
  - split; [done|].
    destruct (make_room_spec _ _ Hinv Hroom) as (? & _ & _ & _ & _ & Hp & _).
    unfold node_key. by rewrite Hp.
Qed.

(** ** [insert_on_missing] *)

(** After [insert_on_missing k v] the key is present: a [get k] that
    follows is a hit; it returns [v] when the key was absent after the
    eviction check, and otherwise the value the key had before the
    call. *)
Theorem insert_on_missing_then_get c k v c' c1 :
  reachable c → insert_on_missing k v c = Some c' →
  make_room_for_insert c = Some c1 →
  (get k c').1
  = match find_in_index k c1 with
    | Some n => node_value c n
    | None => Some v
    end ∧
  is_Some (get k c').1.
Proof.
  intros Hinv%reachable_inv Hins Hroom.
  destruct (insert_on_missing_cases _ _ _ _ Hinv Hins)
    as (c1' & Hroom' & Hinv1 & Hcases).
  assert (c1' = c1) as -> by congruence.
  destruct (make_room_spec _ _ Hinv Hroom) as (? & _ & _ & _ & _ & Hp & _).
  rewrite get_fst.
  destruct Hcases as [(n & Hfind & ->)|[Hnone Hdo]].
  - rewrite Hfind. simpl. unfold node_value. rewrite <-Hp. split; [done|].
    apply find_in_index_Some in Hfind as (_ & nd & -> & _). by eexists.
  - rewrite Hnone.
    destruct (do_insert_lookup _ _ _ _ _ Hinv1 Hdo) as [-> _].
    split; [done|]. by eexists.
Qed.

(** Idempotence: a second [insert_on_missing] of the same key, right
    after a first one, is defined and leaves the value that [get]
    returns for the key as the first call left it. *)
Theorem insert_on_missing_twice c k v1 v2 c' :
  reachable c → insert_on_missing k v1 c = Some c' →
  ∃ c'',
    insert_on_missing k v2 c' = Some c'' ∧
    (get k c'').1 = (get k c').1 ∧ is_Some (get k c'').1.
Proof.
  intros Hreach Hins. pose proof (reachable_inv _ Hreach) as Hinv.
  pose proof (reachable_lru_bound _ Hreach) as Hbound.
  assert (reachable c') as Hreach'.
  { by apply (reachable_exec (InsertOnMissing k v1) c). }
  pose proof (reachable_inv _ Hreach') as Hinv'.
  pose proof (reachable_keys_unique _ Hreach') as Huniq'.
  destruct (make_room_inv _ Hinv') as (c'' & Hroom' & Hinv'' & _).
  exists c''.
  (* the node of [k] in [c'] is still linked in [c''] *)
  assert (∃ n, find_in_index k c' = Some n ∧ n ∈ _index c'')
    as (n & Hfind & Hn).
  { destruct (insert_on_missing_cases _ _ _ _ Hinv Hins)
      as (c1 & Hroom & Hinv1 & [(n & Hfind & ->)|[Hnone Hdo]]).
    - exists n. split; [done|].
      pose proof (room_lru_le _ _ Hinv Hbound Hroom) as Hle.
      rewrite (make_room_not_due _ (lru_not_due _ Hinv1 Hle)) in Hroom'.
      injection Hroom' as <-. by apply find_in_index_Some in Hfind as [? _].
    - destruct (do_insert_spec _ _ _ _ _ Hinv1 Hdo)
        as (n & rest & _ & _ & _ & Hidx & Hlru & _ & _ & _ & _ & Hnd & _).
      exists n. split.
      + eapply find_in_index_head; [done|]. unfold node_key. by rewrite Hnd.
      + by destruct (room_keeps_head _ _ _ _ Hinv' Hlru Hroom'). }
  pose proof (room_lookup k _ _ Hinv' Huniq' Hroom') as Hlook.
  rewrite Hfind in Hlook. destruct Hlook as [Hlook _].
  specialize (Hlook Hn).
  assert (is_Some (find_in_index k c'')) as [n' Hfind''].
  { apply find_in_index_key in Hfind as [_ Hkey].
    apply (find_in_index_hit _ _ n); [done|].
    destruct (make_room_spec _ _ Hinv' Hroom') as (? & _ & _ & _ & _ & Hp & _).
    unfold node_key. by rewrite Hp. }
  split_and!.
  - unfold insert_on_missing, insert_check. rewrite Hroom'. simpl.
    by rewrite Hfind''.
  - by rewrite !get_fst, Hfind.
  - rewrite get_fst, Hfind''. simpl. unfold node_value.
    apply find_in_index_Some in Hfind'' as (_ & nd & -> & _). by eexists.
Qed.

(** ** Runs that do not pin, and pinned entries *)

Lemma reachable_run ops c c' :
  reachable c → run ops c = Some c' → reachable c'.
Proof.
  intros (key0 & value0 & capacity & ops0 & Hpos & Hrun0) Hrun.
  exists key0, value0, capacity, (ops0 ++ ops). split; [done|].
  by rewrite run_app, Hrun0.
Qed.

Lemma exec_nr_unevicted o c c' :
  cache_inv c → exec o c = Some c' →
  _nr_unevicted c ≤ _nr_unevicted c' ∧
  (pins o = false → _nr_unevicted c' = _nr_unevicted c).
Proof.
  intros Hinv. destruct o as [k|k v|k v e]; simpl.
  - intros [= <-]. rewrite get_snd.
    destruct (find_in_index k c) as [n|]; simpl; [|done].
    destruct (lru_touch_frame n c) as (_ & _ & -> & _). done.
  - intros Hins.
    destruct (insert_on_missing_cases _ _ _ _ Hinv Hins)
      as (c1 & Hroom & Hinv1 & Hcases).
    destruct (make_room_spec _ _ Hinv Hroom)
      as (ev & _ & _ & _ & _ & _ & _ & _ & Hnr & _).
    destruct Hcases as [(n & _ & ->)|[_ Hdo]]; [by rewrite Hnr|].
    destruct (do_insert_spec _ _ _ _ _ Hinv1 Hdo)
      as (? & ? & _ & _ & _ & _ & _ & _ & Hnr' & _).
    by rewrite Hnr', Hnr.
  - intros Hins.
    destruct (insert_cases _ _ _ _ _ Hinv Hins)
      as (c1 & Hroom & Hinv1 & Hcases).
    destruct (make_room_spec _ _ Hinv Hroom)
      as (ev & _ & _ & _ & _ & _ & _ & _ & Hnr & _).
    destruct Hcases as [(n & _ & ->)|(_ & c2 & Hdo & ->)].
    + destruct (lru_touch_frame n (update_node (with_value v) n c1))
        as (_ & _ & -> & _). simpl. by rewrite Hnr.
    + destruct (do_insert_spec _ _ _ _ _ Hinv1 Hdo)
        as (? & ? & _ & _ & _ & _ & _ & _ & Hnr' & _).
      destruct e; simpl; rewrite ?Hnr', Hnr; split; (done || lia).
Qed.

(** With a pool of [2 * capacity] nodes, operations that do not pin
    never exhaust it. *)
Lemma run_without_pins ops c :
  reachable c → _nr_unevicted c < _max_size c →
  Forall (λ o, pins o = false) ops →
  ∃ c', run ops c = Some c' ∧ _nr_unevicted c' = _nr_unevicted c.
Proof.
  revert c. induction ops as [|o ops IH]; intros c Hreach Hpinned Hops.
  - by exists c.
  - apply Forall_cons in Hops as [Ho Hops].
    pose proof (reachable_inv _ Hreach) as Hinv.
    assert (is_Some (exec o c)) as [c1 Hexec].
    { destruct o as [k|k v|k v e]; simpl; [by eexists|..].
      - by destruct (insert_is_Some c k v true Hreach Hpinned).
      - by destruct (insert_is_Some c k v e Hreach Hpinned). }
    destruct (exec_nr_unevicted _ _ _ Hinv Hexec) as [_ Hnr].
    specialize (Hnr Ho).
    destruct (IH c1) as (c' & Hrun & Hnr'); [| |done|].
    + by eapply reachable_exec.
    + rewrite Hnr, (exec_max_size _ _ _ Hinv Hexec). done.
    + exists c'. simpl. rewrite Hexec. simpl. split; [done|]. congruence.
Qed.

(** For a cache built with a capacity below [2^53], a run of operations
    none of which pins an entry is defined from every state of a run in
    which fewer than [capacity] entries are pinned, and it leaves the
    pinned counter as it was. *)
Theorem run_without_pins_defined (key0 : Key) (value0 : Value) capacity
    ops0 c ops :
  0 < capacity → (Z.of_nat capacity < 2 ^ 53)%Z →
  run ops0 (lru_cache_new key0 value0 capacity) = Some c →
  _nr_unevicted c < capacity →
  Forall (λ o, pins o = false) ops →
  ∃ c', run ops c = Some c' ∧ _nr_unevicted c' = _nr_unevicted c.
Proof.
  intros Hpos _ Hrun Hpinned.
  destruct (run_capacity _ _ _ _ _ Hpos Hrun) as (Hreach & _ & Hmax).
  apply run_without_pins; [done|]. by rewrite Hmax.
Qed.

Lemma pinned_exec o c c' n :
  cache_inv c → exec o c = Some c' → n ∈ _unevicted_list c →
  n ∈ _unevicted_list c' ∧ node_key c' n = node_key c n.
Proof.
  intros Hinv Hexec Hn.
  assert (∀ c1 k v e c2,
    make_room_for_insert c = Some c1 → cache_inv c1 →
    do_insert k v e c1 = Some c2 →
    n ∈ _unevicted_list c2 ∧ node_key c2 n = node_key c n) as Hfresh.
  { intros c1 k v e c2 Hroom Hinv1 Hdo.
    destruct (make_room_spec _ _ Hinv Hroom)
      as (ev & _ & _ & _ & _ & Hp & _ & Hun & _).
    destruct (do_insert_spec _ _ _ _ _ Hinv1 Hdo)
      as (n0 & rest & Hfree & _ & _ & _ & _ & Hun' & _ & _ & _ & _ & Hother).
    pose proof (cache_inv_NoDup _ Hinv1) as Hnodup.
    rewrite Hfree in Hnodup. apply NoDup_cons in Hnodup as [Hn0 _].
    assert (n ≠ n0) as Hne.
    { intros ->. apply Hn0. rewrite !elem_of_app, Hun. auto. }
    split.
    - rewrite Hun', Hun. destruct e; [done|by right].
    - unfold node_key. by rewrite Hother, Hp. }
  destruct o as [k|k v|k v e]; simpl in Hexec.
  - injection Hexec as <-. rewrite get_snd.
    destruct (find_in_index k c) as [m|] eqn:Hfind; simpl; [|done].
    apply find_in_index_Some in Hfind as [Hm _].
    destruct (lru_touch_lru_perm _ _ Hinv Hm) as [_ ->].
    split; [done|]. apply lru_touch_key.
  - destruct (insert_on_missing_cases _ _ _ _ Hinv Hexec)
      as (c1 & Hroom & Hinv1 & [(m & _ & ->)|[_ Hdo]]).
    + destruct (make_room_spec _ _ Hinv Hroom)
        as (ev & _ & _ & _ & _ & Hp & _ & Hun & _).
      unfold node_key. by rewrite Hun, Hp.
    + by eapply Hfresh.
  - destruct (insert_cases _ _ _ _ _ Hinv Hexec)
      as (c1 & Hroom & Hinv1 & [(m & Hfind & ->)|(_ & c2 & Hdo & ->)]).
    + destruct (make_room_spec _ _ Hinv Hroom)
        as (ev & _ & _ & _ & _ & Hp & _ & Hun & _).
      apply find_in_index_Some in Hfind as [Hm _].
      destruct (lru_touch_lru_perm (update_node (with_value v) m c1) m)
        as [_ ->]; [by apply cache_inv_update_node|done|].
      simpl. split; [by rewrite Hun|].
      unfold node_key. rewrite lru_touch_key. unfold update_node. simpl.
      by rewrite field_alter, Hp.
    + destruct (Hfresh _ _ _ _ _ Hroom Hinv1 Hdo) as [Hin Hkey].
      by destruct e.
Qed.

Lemma pinned_run ops c c' n :
  cache_inv c → run ops c = Some c' → n ∈ _unevicted_list c →
  n ∈ _unevicted_list c' ∧ node_key c' n = node_key c n.
Proof.
  revert c. induction ops as [|o ops IH]; intros c Hinv; simpl.
  - by intros [= <-].
  - destruct (exec o c) as [c1|] eqn:Hexec; [|done]. simpl.
    intros Hrun Hn.
    destruct (pinned_exec _ _ _ _ Hinv Hexec Hn) as [Hn1 Hkey1].
    destruct (IH c1) as [Hn' Hkey']; [by eapply cache_inv_exec|done..|].
    split; [done|]. congruence.
Qed.

(** Pinned persistence: a node on the pinned list stays there, with its
    key, through every run of public operations; its key is found in
    the index, at that node, and [get] of it is a hit. *)
Theorem pinned_entries_stay ops c c' n k :
  reachable c → n ∈ _unevicted_list c → node_key c n = Some k →
  run ops c = Some c' →
  n ∈ _unevicted_list c' ∧ (n ∉ _lru c') ∧
  find_in_index k c' = Some n ∧ is_Some (get k c').1.
Proof.
  intros Hreach Hn Hkey Hrun.
  pose proof (reachable_inv _ Hreach) as Hinv.
  pose proof (reachable_run _ _ _ Hreach Hrun) as Hreach'.
  pose proof (reachable_inv _ Hreach') as Hinv'.
  destruct (pinned_run _ _ _ _ Hinv Hrun Hn) as [Hn' Hkey'].
  rewrite Hkey in Hkey'.
  assert (find_in_index k c' = Some n) as Hfind.
  { apply find_in_index_unique; [by apply reachable_keys_unique|].
    split; [|done]. rewrite (inv_index _ Hinv'), elem_of_app. by left. }
  split_and!; try done.
  - pose proof (cache_inv_NoDup _ Hinv') as Hnodup.
    apply NoDup_app in Hnodup as (_ & _ & Hnodup).
    apply NoDup_app in Hnodup as (_ & Hdisj & _). by apply Hdisj.
  - rewrite get_fst, Hfind. simpl. unfold node_value.
    unfold node_key in Hkey'.
    destruct (_node_pool c' !! n); [by eexists|done].
Qed.

(** ** Recency order of the evictable list *)

Lemma StronglySorted_filter {A} (R : relation A) (P : A → Prop)
    `{!∀ x, Decision (P x)} (l : list A) :
  StronglySorted R l → StronglySorted R (filter P l).
Proof.
  induction l as [|a l IH]; [done|].
  rewrite StronglySorted_cons. intros [Hall Hsorted].
  rewrite filter_cons. case_decide; [|by apply IH].
  apply StronglySorted_cons. split; [|by apply IH].
  apply Forall_forall. intros x [_ Hx]%list_elem_of_filter.
  by apply (proj1 (Forall_forall _ _) Hall).
Qed.

Lemma StronglySorted_ext_in {A} (R R' : relation A) (l : list A) :
  (∀ a b, a ∈ l → b ∈ l → R a b → R' a b) →
  StronglySorted R l → StronglySorted R' l.
Proof.
  induction l as [|a l IH]; intros Himpl; [constructor|].
  rewrite !StronglySorted_cons. intros [Hall Hsorted]. split.
  - apply Forall_forall. intros x Hx. apply Himpl; [left|by right|].
    by apply (proj1 (Forall_forall _ _) Hall).
  - apply IH; [|done]. intros x y Hx Hy. apply Himpl; by right.
Qed.

Lemma recency_ordered_ext c c' :
  _lru c' = _lru c →
  (∀ m, m ∈ _lru c → promotion_of c' m = promotion_of c m) →
  recency_ordered c → recency_ordered c'.
Proof.
  intros Hlru Hpromo. unfold recency_ordered. rewrite Hlru.
  apply StronglySorted_ext_in. intros a b Ha Hb.
  by rewrite !Hpromo.
Qed.

Lemma promotion_of_bound c m :
  times_ordered c → (0 ≤ _current_time c)%Z →
  (promotion_of c m ≤ _current_time c)%Z.
Proof.
  intros Hord Hpos. unfold promotion_of.
  destruct (_node_pool c !! m) as [md|] eqn:Hmd; simpl; [|done].
  specialize (Hord m md Hmd). lia.
Qed.

(** A node that enters the list at its head with a promotion time above
    the clock keeps the list ordered. *)
Lemma recency_ordered_push c c' n l :
  times_ordered c → (0 ≤ _current_time c)%Z →
  StronglySorted (λ a b, (promotion_of c b < promotion_of c a)%Z) l →
  n ∉ l → _lru c' = n :: l →
  (∀ m, m ≠ n → promotion_of c' m = promotion_of c m) →
  (_current_time c < promotion_of c' n)%Z →
  recency_ordered c'.
Proof.
  intros Hord Hpos Hsorted Hn Hlru Hother Hnew.
  unfold recency_ordered. rewrite Hlru. apply StronglySorted_cons. split.
  - apply Forall_forall. intros m Hm.
    rewrite (Hother m) by (by intros ->).
    pose proof (promotion_of_bound c m Hord Hpos). lia.
  - revert Hsorted. apply StronglySorted_ext_in. intros a b Ha Hb.
    by rewrite !Hother by (by intros ->).
Qed.

Lemma recency_ordered_touch c n :
  cache_inv c → n ∈ _index c → times_ordered c →
  (0 ≤ _current_time c)%Z → (_current_time c + 1 < 2 ^ 64)%Z →
  recency_ordered c → recency_ordered (lru_touch n c).
Proof.
  intros Hinv Hn Hord Hpos Hbound Hsorted.
  rewrite (inv_index _ Hinv) in Hn.
  destruct (cache_inv_node c n Hinv) as [nd Hnd].
  { rewrite elem_of_app. by right. }
  rewrite (lru_touch_unfold _ _ _ Hnd). simpl.
  assert (wrap64 (_current_time c + 1) = _current_time c + 1)%Z as ->.
  { unfold wrap64. apply Z.mod_small. lia. }
  destruct (promotion_due _ _).
  - apply (recency_ordered_push c _ n (filter (λ m, m ≠ n) (_lru c)));
      try done.
    + by apply StronglySorted_filter.
    + rewrite list_elem_of_filter. tauto.
    + intros m Hm. unfold promotion_of. simpl.
      by rewrite !list_lookup_alter_ne.
    + unfold promotion_of. simpl. rewrite !list_lookup_alter_eq, Hnd.
      simpl. lia.
  - revert Hsorted. apply recency_ordered_ext; [done|].
    intros m _. unfold promotion_of. simpl. by rewrite field_alter.
Qed.

Lemma recency_ordered_room c c1 :
  cache_inv c → make_room_for_insert c = Some c1 →
  recency_ordered c → recency_ordered c1.
Proof.
  intros Hinv Hroom.
  destruct (make_room_spec _ _ Hinv Hroom) as (ev & Hlru & _ & _ & _ & Hp & _).
  unfold recency_ordered. rewrite Hlru. intros Hsorted%StronglySorted_app_1_l.
  revert Hsorted. apply StronglySorted_ext_in. intros a b _ _.
  unfold promotion_of. by rewrite Hp.
Qed.

Lemma recency_ordered_do_insert k v e c c2 :
  cache_inv c → times_ordered c →
  (0 ≤ _current_time c)%Z → (_current_time c + 1 < 2 ^ 64)%Z →
  do_insert k v e c = Some c2 →
  recency_ordered c → recency_ordered c2.
Proof.
  intros Hinv Hord Hpos Hbound Hdo Hsorted.
  destruct (do_insert_spec _ _ _ _ _ Hinv Hdo)
    as (n0 & rest & Hfree & _ & _ & _ & Hlru & _ & _ & _ & _ & Hn0 & Hother).
  assert (wrap64 (_current_time c + 1) = _current_time c + 1)%Z as Hwrap.
  { unfold wrap64. apply Z.mod_small. lia. }
  assert (n0 ∉ _lru c) as Hfresh.
  { pose proof (cache_inv_NoDup _ Hinv) as Hnodup.
    rewrite Hfree in Hnodup. apply NoDup_cons in Hnodup as [Hnodup _].
    intros Hin. apply Hnodup. rewrite !elem_of_app. auto. }
  assert (∀ m, m ≠ n0 → promotion_of c2 m = promotion_of c m) as Hsame.
  { intros m Hm. unfold promotion_of. by rewrite Hother. }
  destruct e.
  - apply (recency_ordered_push c _ n0 (_lru c)); try done.
    unfold promotion_of. rewrite Hn0. simpl. lia.
  - revert Hsorted. apply recency_ordered_ext; [done|].
    intros m Hm. apply Hsame. by intros ->.
Qed.

Lemma recency_ordered_exec o c c' :
  cache_inv c → times_ordered c →
  (0 ≤ _current_time c)%Z → (_current_time c + 1 < 2 ^ 64)%Z →
  exec o c = Some c' → recency_ordered c → recency_ordered c'.
Proof.
  intros Hinv Hord Hpos Hbound Hexec Hsorted.
  assert (∀ c1, make_room_for_insert c = Some c1 →
    times_ordered c1 ∧ _current_time c1 = _current_time c) as Hroom_times.
  { intros c1 Hroom.
    destruct (make_room_spec _ _ Hinv Hroom)
      as (ev & _ & _ & _ & _ & Hp & Ht & _).
    split; [|done]. unfold times_ordered. by rewrite Hp, Ht. }
  destruct o as [k|k v|k v e]; simpl in Hexec.
  - injection Hexec as <-. rewrite get_snd.
    destruct (find_in_index k c) as [n|] eqn:Hfind; simpl; [|done].
    apply find_in_index_Some in Hfind as [Hn _].
    by apply recency_ordered_touch.
  - destruct (insert_on_missing_cases _ _ _ _ Hinv Hexec)
      as (c1 & Hroom & Hinv1 & Hcases).
    pose proof (recency_ordered_room _ _ Hinv Hroom Hsorted) as Hsorted1.
    destruct (Hroom_times _ Hroom) as [Hord1 Ht1].
    destruct Hcases as [(n & _ & ->)|[_ Hdo]]; [done|].
    eapply recency_ordered_do_insert; [done|done| | |done|done];
      by rewrite Ht1.
  - destruct (insert_cases _ _ _ _ _ Hinv Hexec)
      as (c1 & Hroom & Hinv1 & Hcases).
    pose proof (recency_ordered_room _ _ Hinv Hroom Hsorted) as Hsorted1.
    destruct (Hroom_times _ Hroom) as [Hord1 Ht1].
    destruct Hcases as [(n & Hfind & ->)|(_ & c2 & Hdo & ->)].
    + apply find_in_index_Some in Hfind as [Hn _].
      apply recency_ordered_touch; simpl; rewrite ?Ht1; try done.
      * by apply cache_inv_update_node.
      * intros m md. unfold update_node. simpl.
        intros (md0 & Hmd0 & [[_ ->]|[_ ->]])%lookup_alter_Some;
          by apply (Hord1 m md0).
      * revert Hsorted1. apply recency_ordered_ext; [done|].
        intros m _. unfold promotion_of, update_node. simpl.
        by rewrite field_alter.
    + assert (recency_ordered c2) as Hsorted2.
      { eapply recency_ordered_do_insert; [done|done| | |done|done];
          by rewrite Ht1. }
      by destruct e.
Qed.

Lemma run_recency_ordered ops c c' :
  cache_inv c → times_ordered c → (0 ≤ _current_time c)%Z →
  (_current_time c + Z.of_nat (length ops) < 2 ^ 64)%Z →
  recency_ordered c → run ops c = Some c' → recency_ordered c'.
Proof.
  revert c. induction ops as [|o ops IH];
    intros c Hinv Hord Hpos Hbound Hsorted.
  - simpl. by intros [= <-].
  - simpl in *. destruct (exec o c) as [c1|] eqn:Hexec; [|done]. simpl.
    destruct (clock_step_ordered c c1) as [Hord1 Hclock1]; try done.
    { lia. } { by eapply clock_step_exec. }
    apply IH; try done.
    + by eapply cache_inv_exec.
    + lia.
    + lia.
    + eapply recency_ordered_exec; try done. lia.
Qed.

(** In every state reached from a fresh cache by fewer than [2^64]
    operations, the evictable list is in recency order: promotion times
    decrease strictly from the MRU head to the LRU tail.  So the nodes
    that the eviction check removes have older promotion times than
    every evictable node it keeps. *)
Theorem eviction_takes_oldest (key0 : Key) (value0 : Value) capacity ops c :
  0 < capacity → (Z.of_nat (length ops) < 2 ^ 64)%Z →
  run ops (lru_cache_new key0 value0 capacity) = Some c →
  recency_ordered c ∧
  ∀ c1 a b,
    make_room_for_insert c = Some c1 →
    a ∈ _lru c1 → b ∈ _lru c → b ∉ _lru c1 →
    (promotion_of c b < promotion_of c a)%Z.
Proof.
  intros Hpos Hlen Hrun.
  pose proof (cache_inv_new key0 value0 capacity Hpos) as Hinv0.
  pose proof (cache_inv_run _ _ _ Hinv0 Hrun) as Hinv.
  assert (recency_ordered c) as Hsorted.
  { apply (run_recency_ordered ops (lru_cache_new key0 value0 capacity) c
             Hinv0);
      [apply times_ordered_new | done | simpl; lia | constructor | done]. }
  split; [done|]. intros c1 a b Hroom Ha Hb Hb1.
  destruct (make_room_spec _ _ Hinv Hroom) as (ev & Hlru & _).
  unfold recency_ordered in Hsorted. rewrite Hlru in Hsorted, Hb.
  apply elem_of_app in Hb as [Hb|Hb]; [done|].
  by apply (StronglySorted_app_1_elem_of _ _ _ _ _ Hsorted).
Qed.

(** ** How the operations move the clock *)

Lemma insert_time k v e c c' :
  cache_inv c → insert k v e c = Some c' →
  _current_time c' = wrap64 (_current_time c + 1).
Proof.
  intros Hinv Hins.
  destruct (insert_cases _ _ _ _ _ Hinv Hins)
    as (c1 & Hroom & Hinv1 & Hcases).
  destruct (make_room_spec _ _ Hinv Hroom)
    as (ev & _ & _ & _ & _ & _ & Ht & _).
  destruct Hcases as [(n & _ & ->)|(_ & c2 & Hdo & ->)].
  - destruct (lru_touch_pool n (update_node (with_value v) n c1)) as [-> _].
    simpl. by rewrite Ht.
  - destruct (do_insert_spec _ _ _ _ _ Hinv1 Hdo)
      as (? & ? & _ & _ & _ & _ & _ & _ & _ & _ & Ht' & _).
    destruct e; simpl; by rewrite Ht', Ht.
Qed.

Lemma get_hit_time k c :
  is_Some (get k c).1 →
  _current_time (get k c).2 = wrap64 (_current_time c + 1).
Proof.
  rewrite get_fst, get_snd.
  destruct (find_in_index k c) as [n|]; simpl; [|by intros [? ?]].
  intros _. by destruct (lru_touch_pool n c) as [-> _].
Qed.

(** The clock counts the touches and the insertions: a [get] that hits
    and an [insert] that is defined each increment it once (modulo
    [2^64]); a [get] that misses and an [insert_on_missing] of a key
    found after the eviction check leave it as it is. *)
Theorem clock_counts_accesses c k v e :
  reachable c →
  (∀ c', insert k v e c = Some c' →
     _current_time c' = wrap64 (_current_time c + 1)) ∧
  (is_Some (get k c).1 →
     _current_time (get k c).2 = wrap64 (_current_time c + 1)) ∧
  ((get k c).1 = None → (get k c).2 = c) ∧
  (∀ c1 c', make_room_for_insert c = Some c1 →
     insert_on_missing k v c = Some c' →
     _current_time c'
     = match find_in_index k c1 with
       | Some _ => _current_time c
       | None => wrap64 (_current_time c + 1)
       end).
Proof.
  intros Hinv%reachable_inv. split_and!.
  - intros c'. by apply insert_time.
  - apply get_hit_time.
  - rewrite get_fst, get_snd.
    destruct (find_in_index k c) as [n|] eqn:Hfind; simpl; [|done].
    apply find_in_index_Some in Hfind as (_ & nd & Hnd & _).
    unfold node_value. by rewrite Hnd.
  - intros c1 c' Hroom Hins.
    destruct (insert_on_missing_cases _ _ _ _ Hinv Hins)
      as (c1' & Hroom' & Hinv1 & Hcases).
    assert (c1' = c1) as -> by congruence.
    destruct (make_room_spec _ _ Hinv Hroom)
      as (ev & _ & _ & _ & _ & _ & Ht & _).
    destruct Hcases as [(n & -> & ->)|[-> Hdo]]; [done|].
    destruct (do_insert_spec _ _ _ _ _ Hinv1 Hdo)
      as (? & ? & _ & _ & _ & _ & _ & _ & _ & _ & Ht' & _).
    by rewrite Ht', Ht.
Qed.

(** ** The insertion of a new entry *)

(** Isolation for [insert_on_missing]: as for [insert], another key is
    affected through the eviction check only. *)
Theorem insert_on_missing_keeps_other_keys c k v c' c1 k' :
  reachable c → insert_on_missing k v c = Some c' →
  make_room_for_insert c = Some c1 → k' ≠ k →
  (get k' c').1 = (get k' c1).1 ∧
  match find_in_index k' c with
  | Some m =>
      (m ∈ _index c1 → (get k' c').1 = (get k' c).1) ∧
      (m ∉ _index c1 → (get k' c').1 = None)
  | None => (get k' c').1 = None
  end.
Proof.
  intros Hreach Hins Hroom Hk'.
  pose proof (reachable_inv _ Hreach) as Hinv.
  pose proof (reachable_keys_unique _ Hreach) as Huniq.
  assert ((get k' c').1 = (get k' c1).1) as Hsame.
  { rewrite !get_fst.
    destruct (insert_on_missing_cases _ _ _ _ Hinv Hins)
      as (c1' & Hroom' & Hinv1 & Hcases).
    assert (c1' = c1) as -> by congruence.
    destruct Hcases as [(n & Hfind & ->)|[Hnone Hdo]]; [done|].
    destruct (do_insert_lookup _ _ _ _ _ Hinv1 Hdo) as [_ Hother].
    by apply Hother. }
  split; [done|]. rewrite Hsame, !get_fst.
  pose proof (room_lookup k' _ _ Hinv Huniq Hroom) as Hlook.
  destruct (find_in_index k' c) as [m|].
  - destruct Hlook as [Hin Hout]. split; [done|].
    intros Hm. by rewrite (Hout Hm).
  - by rewrite Hlook.
Qed.

(** What [insert] does with a key that is not found after the eviction
    check: the node on top of the free stack becomes the entry, with
    the key, the value and the flag given and both timestamps equal to
    the incremented clock; it is linked at the head of the index and at
    the head of the list of its class; the pinned counter grows exactly
    for a pinned entry; no other node changes.  When the check has just
    evicted, the node taken is the evicted node that was nearest to the
    MRU end. *)
Theorem insert_new_entry c k v e c1 c' :
  reachable c → make_room_for_insert c = Some c1 →
  find_in_index k c1 = None → insert k v e c = Some c' →
  ∃ n,
    _free_nodes c1 = n :: _free_nodes c' ∧
    _index c' = n :: _index c1 ∧
    _lru c' = (if e then n :: _lru c1 else _lru c1) ∧
    _unevicted_list c'
    = (if e then _unevicted_list c else n :: _unevicted_list c) ∧
    _nr_unevicted c' = (if e then _nr_unevicted c else S (_nr_unevicted c)) ∧
    _current_time c' = wrap64 (_current_time c + 1) ∧
    _node_pool c' !! n
    = Some (Node k v (_current_time c') (_current_time c') e) ∧
    (∀ m, m ≠ n → _node_pool c' !! m = _node_pool c !! m) ∧
    (eviction_due c = true → ∃ ev, _lru c = _lru c1 ++ n :: ev).
Proof.
  intros Hinv%reachable_inv Hroom Hnone Hins.
  destruct (insert_cases _ _ _ _ _ Hinv Hins)
    as (c1' & Hroom' & Hinv1 & Hcases).
  assert (c1' = c1) as -> by congruence.
  destruct Hcases as [(n & Hfind & _)|(_ & c2 & Hdo & ->)]; [congruence|].
  destruct (make_room_spec _ _ Hinv Hroom)
    as (ev & Hlru & _ & Hfree1 & Hev & Hp & Ht & Hun & Hnr & _).
  destruct (do_insert_spec _ _ _ _ _ Hinv1 Hdo)
    as (n & rest & Hfree & Hrest & _ & Hidx & Hlru' & Hun' & Hnr' & _ & Ht'
        & Hnd & Hother).
  exists n. split_and!.
  - rewrite Hfree. by destruct e; simpl; rewrite Hrest.
  - by destruct e.
  - by destruct e.
  - rewrite <-Hun. by destruct e.
  - rewrite <-Hnr. destruct e; simpl; by rewrite Hnr'.
  - rewrite <-Ht. by destruct e.
  - destruct e; simpl; by rewrite Hnd, Ht'.
  - intros m Hm. rewrite <-Hp. destruct e; simpl; by apply Hother.
  - intros Hdue. rewrite Hdue in Hev.
    pose proof (batch_positive _ Hinv) as Hbatch.
    destruct ev as [|n' ev']; [simpl in Hev; lia|].
    rewrite Hfree in Hfree1. simpl in Hfree1. injection Hfree1 as -> _.
    by exists ev'.
Qed.

(** ** The pool and the eviction check

    The claims of this part depend on the size of the pool.  They are
    stated for the states of the runs of a cache built with a capacity
    below [2^53], the capacities for which [lru_cache_new] is the
    constructor exactly. *)

(** C9: after construction and after every public operation, the free
    stack, the pinned list and the evictable list together hold
    [2 * capacity] nodes, the size of the pool, and every pool node is
    in exactly one of the three.  [capacity] is the argument of the
    constructor; the [size_t] product [_max_size * 2] that sizes the
    pool does not wrap. *)
Theorem C9_pool_partition (key0 : Key) (value0 : Value) capacity ops c :
  0 < capacity → (Z.of_nat capacity < 2 ^ 53)%Z →
  run ops (lru_cache_new key0 value0 capacity) = Some c →
  _max_size c = capacity ∧
  length (_node_pool c) = 2 * capacity ∧
  Z.of_nat (length (_node_pool c)) = wrap64 (Z.of_nat (_max_size c) * 2) ∧
  length (_free_nodes c) + length (_unevicted_list c) + length (_lru c)
  = 2 * capacity ∧
  NoDup (_free_nodes c ++ _unevicted_list c ++ _lru c) ∧
  ∀ n, n < length (_node_pool c)
       ↔ n ∈ _free_nodes c ++ _unevicted_list c ++ _lru c.
Proof.
  intros Hpos Hbound Hrun.
  destruct (run_capacity _ _ _ _ _ Hpos Hrun) as (_ & Hinv & Hmax).
  pose proof (inv_pool _ Hinv) as Hpool.
  split_and!.
  - done.
  - lia.
  - unfold wrap64. rewrite Z.mod_small; lia.
  - rewrite (cache_inv_lengths _ Hinv). lia.
  - by apply cache_inv_NoDup.
  - intros n. rewrite (inv_nodes _ Hinv), elem_of_seq, Hpool. lia.
Qed.


(** C4: whenever the eviction path runs in a state of a run, the
    evictable list holds more than [batch_evict_size] nodes, so the
    backward iteration never steps before the first element and removes
    exactly [batch_evict_size] nodes. *)
Theorem C4_eviction_no_underflow (key0 : Key) (value0 : Value) capacity
    ops c :
  0 < capacity → (Z.of_nat capacity < 2 ^ 53)%Z →
  run ops (lru_cache_new key0 value0 capacity) = Some c →
  length (_free_nodes c) + _nr_unevicted c < _max_size c →
  _batch_evict_size c < length (_lru c) ∧
  evict_loop (_batch_evict_size c) (_lru c) c ≠ None ∧
  ∃ keep ev c',
    _lru c = keep ++ ev ∧ length ev = _batch_evict_size c ∧
    make_room_for_insert c = Some c' ∧ _lru c' = keep.
Proof.
  intros Hpos Hbound Hrun Hdue.
  destruct (run_capacity _ _ _ _ _ Hpos Hrun) as (_ & Hinv & _).
  pose proof (batch_le_capacity _ Hinv) as Hbatch.
  pose proof (proj1 (eviction_due_lru _ Hinv) Hdue) as Hlen.
  split; [lia|]. split; [rewrite evict_loop_None; lia|].
  apply eviction_due_iff in Hdue.
  destruct (make_room_due _ Hinv Hdue) as (keep & ev & Hlru & Hev & Hroom).
  exists keep, ev. eexists. split_and!; [done..|by destruct c].
Qed.

(** C5: the eviction check made before an insertion evicts exactly when
    [free_nodes + pinned_count < capacity]; it then takes
    [batch_evict_size = min(3, capacity - soft_promotion_threshold)]
    nodes from the tail of the evictable list, unlinks each from the
    index and pushes it onto the free stack; the pinned list is not
    changed and its nodes stay in the index.  [capacity] is the
    argument of the constructor and the threshold is its half. *)
Theorem C5_eviction_check (key0 : Key) (value0 : Value) capacity ops c :
  0 < capacity → (Z.of_nat capacity < 2 ^ 53)%Z →
  run ops (lru_cache_new key0 value0 capacity) = Some c →
  _max_size c = capacity ∧ _soft_promotion c = capacity / 2 ∧
  _batch_evict_size c = 3 `min` (_max_size c - _soft_promotion c) ∧
  ∃ c', make_room_for_insert c = Some c' ∧
    (¬ length (_free_nodes c) + _nr_unevicted c < _max_size c → c' = c) ∧
    (length (_free_nodes c) + _nr_unevicted c < _max_size c →
     ∃ keep ev,
       _lru c = keep ++ ev ∧ length ev = _batch_evict_size c ∧
       _lru c' = keep ∧
       _free_nodes c' = ev ++ _free_nodes c ∧
       _index c' = filter (λ m, m ∉ ev) (_index c) ∧
       (∀ n, n ∈ ev → (n ∉ _index c') ∧ n ∈ _free_nodes c') ∧
       _unevicted_list c' = _unevicted_list c ∧
       (∀ n, n ∈ _unevicted_list c → n ∈ _index c') ∧
       _nr_unevicted c' = _nr_unevicted c ∧
       _node_pool c' = _node_pool c).
Proof.
  intros Hpos Hbound Hrun.
  destruct (run_capacity _ _ _ _ _ Hpos Hrun) as (_ & Hinv & Hmax).
  split; [done|]. split; [by rewrite (inv_soft _ Hinv), Hmax|].
  split; [by apply inv_batch|].
  destruct (eviction_due c) eqn:Hdue.
  - destruct (make_room_due _ Hinv Hdue) as (keep & ev & Hlru & Hev & Hroom).
    pose proof (cache_inv_evicted _ _ _ Hinv Hlru) as Hinv'.
    eexists. split; [done|]. apply eviction_due_iff in Hdue.
    split; [done|]. intros _. exists keep, ev.
    split_and!; try by destruct c.
    + intros n Hn. split.
      * destruct c. unfold_setters. rewrite list_elem_of_filter. tauto.
      * destruct c. unfold_setters. rewrite elem_of_app. by left.
    + intros n Hn. rewrite (inv_index _ Hinv'), elem_of_app. left.
      by destruct c.
  - exists c. split; [by apply make_room_not_due|]. split; [done|].
    intros Hlt%eviction_due_iff. congruence.
Qed.

End lru_cache_more.

(** * The benchmark driver and the hash functor *)

Lemma bench_step_spec i c :
  reachable c → _nr_unevicted c < _max_size c →
  ∃ c',
    bench_step i c = Some (Some (bench_key i), c') ∧
    reachable c' ∧ _nr_unevicted c' = _nr_unevicted c ∧
    _max_size c' = _max_size c ∧
    _current_time c' = wrap64 (wrap64 (_current_time c + 1) + 1).
Proof.
  intros Hreach Hpinned. pose proof (reachable_inv _ Hreach) as Hinv.
  destruct (insert_is_Some c (bench_key i) (bench_key i) true Hreach Hpinned)
    as [[c1 Hins] _].
  pose proof (reachable_exec (Insert (bench_key i) (bench_key i) true)
                _ _ Hreach Hins) as Hreach1.
  pose proof (reachable_inv _ Hreach1) as Hinv1.
  pose proof (insert_get_value _ _ _ _ _ Hinv Hins) as Hget.
  exists (get (bench_key i) c1).2. split_and!.
  - unfold bench_step. simpl. rewrite Hins. simpl. rewrite <-Hget.
    by destruct (get (bench_key i) c1).
  - by apply (reachable_exec (Get (bench_key i)) c1).
  - pose proof (proj2 (exec_nr_unevicted (Get (bench_key i)) c1
                         (get (bench_key i) c1).2 Hinv1 eq_refl) eq_refl)
      as Hnr1.
    pose proof (proj2 (exec_nr_unevicted
                         (Insert (bench_key i) (bench_key i) true)
                         c c1 Hinv Hins) eq_refl) as Hnr.
    congruence.
  - rewrite (exec_max_size (Get (bench_key i)) c1 _ Hinv1 eq_refl).
    apply (exec_max_size (Insert (bench_key i) (bench_key i) true)
             _ _ Hinv Hins).
  - rewrite get_hit_time by (rewrite Hget; by eexists).
    by rewrite (insert_time _ _ _ _ _ Hinv Hins).
Qed.

Lemma bench_loop_spec n : ∀ i c,
  reachable c → _nr_unevicted c < _max_size c →
  (0 ≤ _current_time c)%Z →
  (_current_time c + 2 * Z.of_nat n < 2 ^ 64)%Z →
  ∃ c',
    bench_loop n i c
    = Some ((λ j, Some (bench_key (i + Z.of_nat j))) <$> seq 0 n, c') ∧
    _nr_unevicted c' = _nr_unevicted c ∧
    _current_time c' = (_current_time c + 2 * Z.of_nat n)%Z.
Proof.
  induction n as [|n IH]; intros i c Hreach Hpinned Hpos Hbound.
  - exists c. simpl. split_and!; [done..|lia].
  - destruct (bench_step_spec i c Hreach Hpinned)
      as (c1 & Hstep & Hreach1 & Hnr1 & Hmax1 & Ht1).
    assert (_current_time c1 = _current_time c + 2)%Z as Ht1'.
    { rewrite Ht1. unfold wrap64.
      rewrite (Z.mod_small (_current_time c + 1)) by lia.
      rewrite Z.mod_small by lia. lia. }
    destruct (IH (i + 1)%Z c1) as (c' & Hloop & Hnr' & Ht'); try done.
    { by rewrite Hnr1, Hmax1. } { lia. } { lia. }
    exists c'. split_and!.
    + simpl. rewrite Hstep. simpl. rewrite Hloop. simpl.
      do 3 f_equal.
      * do 2 f_equal. lia.
      * rewrite <-fmap_S_seq, <-list_fmap_compose.
        apply list_fmap_ext. intros _ j _. simpl. do 2 f_equal. lia.
    + congruence.
    + lia.
Qed.

(** The loop of [main]: for every number of rounds up to the bound
    [1 << 26] of the source, no call is undefined and every [get] hits
    and returns the key that the [insert] before it stored; no entry is
    pinned, and the clock stands at twice the number of rounds. *)
Theorem bench_main_all_hits (n : nat) :
  (Z.of_nat n ≤ 2 ^ 26)%Z →
  ∃ c,
    bench_main n
    = Some ((λ j, Some (bench_key (Z.of_nat j))) <$> seq 0 n, c) ∧
    _nr_unevicted c = 0 ∧ _current_time c = (2 * Z.of_nat n)%Z.
Proof.
  intros Hn. unfold bench_main.
  destruct (bench_loop_spec n 0 (lru_cache_new 0%Z 0%Z 128))
    as (c & Hloop & Hnr & Ht).
  - apply reachable_new. lia.
  - simpl. lia.
  - done.
  - simpl. lia.
  - exists c. split_and!; [|done|by rewrite Ht].
    rewrite Hloop. do 2 f_equal.
Qed.

Lemma bench_key_value i :
  (0 ≤ i < 2 ^ 26)%Z →
  bench_key i
  = (if decide (i < 2 ^ 25)%Z then 64 * i else 2 ^ 64 - 2 ^ 32 + 64 * i)%Z.
Proof.
  intros Hi. unfold bench_key, wrap64, int32.
  rewrite Z.shiftl_mul_pow2 by done. case_decide.
  - rewrite (Z.mod_small (i * 2 ^ 6 + 2 ^ 31)) by lia.
    rewrite Z.mod_small by lia. lia.
  - replace ((i * 2 ^ 6 + 2 ^ 31) `mod` 2 ^ 32)%Z
      with (i * 2 ^ 6 + 2 ^ 31 - 2 ^ 32)%Z.
    + symmetry. apply (Z.mod_unique_pos _ _ (-1)); lia.
    + apply (Z.mod_unique_pos _ _ 1); lia.
Qed.

(** The hash functor drops the six low bits: it tells apart any two
    keys that are aligned to 64 bytes, as its comment assumes. *)
Theorem hash_key_separates_aligned a b :
  (0 ≤ a)%Z → (0 ≤ b)%Z → (a `mod` 64 = 0)%Z → (b `mod` 64 = 0)%Z →
  hash_key a = (a `div` 64)%Z ∧ (hash_key a = hash_key b → a = b).
Proof.
  intros Ha Hb Ha64 Hb64. unfold hash_key.
  rewrite !Z.shiftr_div_pow2 by done.
  change (2 ^ 6)%Z with 64%Z. split; [done|]. intros Heq.
  rewrite (Z.div_mod a 64), (Z.div_mod b 64) by done. lia.
Qed.

(** The keys that [main] inserts, [uintptr_t(i << 6)] for
    [0 ≤ i < 1 << 26], are 64-bit values aligned to 64 bytes, pairwise
    distinct and with pairwise distinct hashes, although [i << 6]
    leaves the range of [int] from [i = 1 << 25] on. *)
Theorem bench_keys_distinct i j :
  (0 ≤ i < 2 ^ 26)%Z → (0 ≤ j < 2 ^ 26)%Z →
  (0 ≤ bench_key i < 2 ^ 64)%Z ∧ (bench_key i `mod` 64 = 0)%Z ∧
  (bench_key i = bench_key j → i = j) ∧
  (hash_key (bench_key i) = hash_key (bench_key j) → i = j).
Proof.
  intros Hi Hj.
  assert (∀ x, (0 ≤ x < 2 ^ 26)%Z →
    (0 ≤ bench_key x < 2 ^ 64)%Z ∧ (bench_key x `mod` 64 = 0)%Z) as Hshape.
  { intros x Hx. rewrite (bench_key_value x Hx). case_decide.
    - split; [lia|]. rewrite Z.mul_comm. apply Z_mod_mult.
    - split; [lia|].
      replace (2 ^ 64 - 2 ^ 32 + 64 * x)%Z
        with ((2 ^ 58 - 2 ^ 26 + x) * 64)%Z by lia.
      apply Z_mod_mult. }
  assert (bench_key i = bench_key j → i = j) as Hinj.
  { rewrite (bench_key_value i Hi), (bench_key_value j Hj).
    repeat case_decide; lia. }
  destruct (Hshape i Hi) as [Hri Hai], (Hshape j Hj) as [Hrj Haj].
  split; [done|]. split; [done|]. split; [done|].
  intros Hhash. apply Hinj.
  unfold hash_key in Hhash. rewrite !Z.shiftr_div_pow2 in Hhash by done.
  change (2 ^ 6)%Z with 64%Z in Hhash.
  rewrite (Z.div_mod (bench_key i) 64), (Z.div_mod (bench_key j) 64) by done.
  lia.
Qed.

(** * The further properties at work on the example states *)

Lemma index_keys_unique_witness :
  reachable scenario1 ∧ keys_unique scenario1.
Proof.
  assert (reachable scenario1) as H1 by reach_scenario1.
  split; [exact H1|].
  destruct (index_keys_unique scenario1 1 0 H1) as [Huniq _]. exact Huniq.
Defined.

Lemma get_is_read_only_witness :
  reachable scenario1 ∧ _index (get 1 scenario1).2 = _index scenario1.
Proof.
  assert (reachable scenario1) as H1 by reach_scenario1.
  split; [exact H1|].
  destruct (get_is_read_only scenario1 1 H1) as [Hidx _]. exact Hidx.
Defined.

Lemma insert_then_get_witness :
  reachable scenario1 ∧ insert 6 16 true scenario1 = Some scenario6 ∧
  (get 6 scenario6).1 = Some 16.
Proof.
  assert (reachable scenario1) as H1 by reach_scenario1.
  assert (insert 6 16 true scenario1 = Some scenario6) as H2
    by (vm_compute; reflexivity).
  split; [exact H1|]. split; [exact H2|].
  exact (insert_then_get scenario1 6 16 true scenario6 H1 H2).
Defined.

Lemma insert_keeps_other_keys_witness :
  reachable scenario1 ∧ insert 6 16 true scenario1 = Some scenario6 ∧
  make_room_for_insert scenario1 = Some (after_room scenario1) ∧ 5 ≠ 6 ∧
  (get 5 scenario6).1 = (get 5 (after_room scenario1)).1.
Proof.
  assert (reachable scenario1) as H1 by reach_scenario1.
  assert (insert 6 16 true scenario1 = Some scenario6) as H2
    by (vm_compute; reflexivity).
  assert (make_room_for_insert scenario1 = Some (after_room scenario1)) as H3
    by (vm_compute; reflexivity).
  assert (5 ≠ 6) as H4 by lia.
  split; [exact H1|]. split; [exact H2|]. split; [exact H3|].
  split; [exact H4|].
  destruct (insert_keeps_other_keys scenario1 6 16 true scenario6
              (after_room scenario1) 5 H1 H2 H3 H4) as [Hsame _].
  exact Hsame.
Defined.

Lemma insert_on_missing_keeps_other_keys_witness :
  reachable scenario1 ∧ insert_on_missing 6 16 scenario1 = Some scenario6 ∧
  make_room_for_insert scenario1 = Some (after_room scenario1) ∧ 5 ≠ 6 ∧
  (get 5 scenario6).1 = (get 5 (after_room scenario1)).1.
Proof.
  assert (reachable scenario1) as H1 by reach_scenario1.
  assert (insert_on_missing 6 16 scenario1 = Some scenario6) as H2
    by (vm_compute; reflexivity).
  assert (make_room_for_insert scenario1 = Some (after_room scenario1)) as H3
    by (vm_compute; reflexivity).
  assert (5 ≠ 6) as H4 by lia.
  split; [exact H1|]. split; [exact H2|]. split; [exact H3|].
  split; [exact H4|].
  destruct (insert_on_missing_keeps_other_keys scenario1 6 16 scenario6
              (after_room scenario1) 5 H1 H2 H3 H4) as [Hsame _].
  exact Hsame.
Defined.

Lemma evictable_list_bounded_witness :
  reachable scenario1 ∧
  make_room_for_insert scenario1 = Some (after_room scenario1) ∧
  length (_lru scenario1) ≤ _max_size scenario1 + 1.
Proof.
  assert (reachable scenario1) as H1 by reach_scenario1.
  assert (make_room_for_insert scenario1 = Some (after_room scenario1)) as H2
    by (vm_compute; reflexivity).
  split; [exact H1|]. split; [exact H2|].
  destruct (evictable_list_bounded scenario1 (after_room scenario1) H1 H2)
    as [Hbound _].
  exact Hbound.
Defined.

Lemma insert_defined_witness :
  0 < 4 ∧ (Z.of_nat 4 < 2 ^ 53)%Z ∧
  run five_inserts (lru_cache_new 0 0 4) = Some scenario1 ∧
  _nr_unevicted scenario1 < 4 ∧
  is_Some (insert 9 19 false scenario1).
Proof.
  assert (0 < 4) as H1 by lia.
  assert (Z.of_nat 4 < 2 ^ 53)%Z as H2 by (vm_compute; reflexivity).
  assert (run five_inserts (lru_cache_new 0 0 4) = Some scenario1) as H3
    by (vm_compute; reflexivity).
  assert (_nr_unevicted scenario1 < 4) as H4 by (vm_compute; lia).
  split; [exact H1|]. split; [exact H2|]. split; [exact H3|].
  split; [exact H4|].
  destruct (insert_defined 0 0 4 five_inserts scenario1 9 19 false
              H1 H2 H3 H4) as [Hsome _].
  exact Hsome.
Defined.

Lemma eviction_spares_mru_head_witness :
  reachable scenario1 ∧ _lru scenario1 = 4 :: [3; 2; 1; 0] ∧
  make_room_for_insert scenario1 = Some (after_room scenario1) ∧
  4 ∈ _index (after_room scenario1).
Proof.
  assert (reachable scenario1) as H1 by reach_scenario1.
  assert (_lru scenario1 = 4 :: [3; 2; 1; 0]) as H2
    by (vm_compute; reflexivity).
  assert (make_room_for_insert scenario1 = Some (after_room scenario1)) as H3
    by (vm_compute; reflexivity).
  split; [exact H1|]. split; [exact H2|]. split; [exact H3|].
  destruct (eviction_spares_mru_head scenario1 (after_room scenario1) 4
              [3; 2; 1; 0] H1 H2 H3) as (_ & Hin & _).
  exact Hin.
Defined.

Lemma insert_on_missing_then_get_witness :
  reachable scenario1 ∧ insert_on_missing 6 16 scenario1 = Some scenario6 ∧
  make_room_for_insert scenario1 = Some (after_room scenario1) ∧
  is_Some (get 6 scenario6).1.
Proof.
  assert (reachable scenario1) as H1 by reach_scenario1.
  assert (insert_on_missing 6 16 scenario1 = Some scenario6) as H2
    by (vm_compute; reflexivity).
  assert (make_room_for_insert scenario1 = Some (after_room scenario1)) as H3
    by (vm_compute; reflexivity).
  split; [exact H1|]. split; [exact H2|]. split; [exact H3|].
  destruct (insert_on_missing_then_get scenario1 6 16 scenario6
              (after_room scenario1) H1 H2 H3) as [_ Hhit].
  exact Hhit.
Defined.

Lemma insert_on_missing_twice_witness :
  reachable scenario1 ∧ insert_on_missing 6 16 scenario1 = Some scenario6 ∧
  ∃ c'',
    insert_on_missing 6 99 scenario6 = Some c'' ∧
    (get 6 c'').1 = (get 6 scenario6).1 ∧ is_Some (get 6 c'').1.
Proof.
  assert (reachable scenario1) as H1 by reach_scenario1.
  assert (insert_on_missing 6 16 scenario1 = Some scenario6) as H2
    by (vm_compute; reflexivity).
  split; [exact H1|]. split; [exact H2|].
  exact (insert_on_missing_twice scenario1 6 16 99 scenario6 H1 H2).
Defined.

Lemma run_without_pins_defined_witness :
  0 < 4 ∧ (Z.of_nat 4 < 2 ^ 53)%Z ∧
  run five_inserts (lru_cache_new 0 0 4) = Some scenario1 ∧
  _nr_unevicted scenario1 < 4 ∧
  Forall (λ o, pins o = false) five_inserts ∧
  ∃ c', run five_inserts scenario1 = Some c' ∧
        _nr_unevicted c' = _nr_unevicted scenario1.
Proof.
  assert (0 < 4) as H1 by lia.
  assert (Z.of_nat 4 < 2 ^ 53)%Z as H2 by (vm_compute; reflexivity).
  assert (run five_inserts (lru_cache_new 0 0 4) = Some scenario1) as H3
    by (vm_compute; reflexivity).
  assert (_nr_unevicted scenario1 < 4) as H4 by (vm_compute; lia).
  assert (Forall (λ o : op nat nat, pins o = false) five_inserts) as H5
    by (repeat constructor).
  split; [exact H1|]. split; [exact H2|]. split; [exact H3|].
  split; [exact H4|]. split; [exact H5|].
  exact (run_without_pins_defined 0 0 4 five_inserts scenario1 five_inserts
           H1 H2 H3 H4 H5).
Defined.

Lemma pinned_entries_stay_witness :
  reachable pinned7 ∧ 0 ∈ _unevicted_list pinned7 ∧
  node_key pinned7 0 = Some 7 ∧
  run five_inserts pinned7 = Some pinned7_later ∧
  find_in_index 7 pinned7_later = Some 0.
Proof.
  assert (reachable pinned7) as H1 by reach_after [Insert 7 70 false].
  assert (0 ∈ _unevicted_list pinned7) as H2 by compute_done.
  assert (node_key pinned7 0 = Some 7) as H3 by (vm_compute; reflexivity).
  assert (run five_inserts pinned7 = Some pinned7_later) as H4
    by (vm_compute; reflexivity).
  split; [exact H1|]. split; [exact H2|]. split; [exact H3|].
  split; [exact H4|].
  destruct (pinned_entries_stay five_inserts pinned7 pinned7_later 0 7
              H1 H2 H3 H4) as (_ & _ & Hfind & _).
  exact Hfind.
Defined.

Lemma eviction_takes_oldest_witness :
  0 < 4 ∧ (Z.of_nat (length five_inserts) < 2 ^ 64)%Z ∧
  run five_inserts (lru_cache_new 0 0 4) = Some scenario1 ∧
  recency_ordered scenario1.
Proof.
  assert (0 < 4) as H1 by lia.
  assert (Z.of_nat (length five_inserts) < 2 ^ 64)%Z as H2
    by (vm_compute; reflexivity).
  assert (run five_inserts (lru_cache_new 0 0 4) = Some scenario1) as H3
    by (vm_compute; reflexivity).
  split; [exact H1|]. split; [exact H2|]. split; [exact H3|].
  destruct (eviction_takes_oldest 0 0 4 five_inserts scenario1 H1 H2 H3)
    as [Hsorted _].
  exact Hsorted.
Defined.

Lemma clock_counts_accesses_witness :
  reachable scenario1 ∧ insert 6 16 true scenario1 = Some scenario6 ∧
  _current_time scenario6 = wrap64 (_current_time scenario1 + 1).
Proof.
  assert (reachable scenario1) as H1 by reach_scenario1.
  assert (insert 6 16 true scenario1 = Some scenario6) as H2
    by (vm_compute; reflexivity).
  split; [exact H1|]. split; [exact H2|].
  destruct (clock_counts_accesses scenario1 6 16 true H1) as [Hins _].
  exact (Hins scenario6 H2).
Defined.

Lemma insert_new_entry_witness :
  reachable scenario1 ∧
  make_room_for_insert scenario1 = Some (after_room scenario1) ∧
  find_in_index 6 (after_room scenario1) = None ∧
  insert 6 16 true scenario1 = Some scenario6 ∧
  ∃ n, _index scenario6 = n :: _index (after_room scenario1).
Proof.
  assert (reachable scenario1) as H1 by reach_scenario1.
  assert (make_room_for_insert scenario1 = Some (after_room scenario1)) as H2
    by (vm_compute; reflexivity).
  assert (find_in_index 6 (after_room scenario1) = None) as H3
    by (vm_compute; reflexivity).
  assert (insert 6 16 true scenario1 = Some scenario6) as H4
    by (vm_compute; reflexivity).
  split; [exact H1|]. split; [exact H2|]. split; [exact H3|].
  split; [exact H4|].
  destruct (insert_new_entry scenario1 6 16 true (after_room scenario1)
              scenario6 H1 H2 H3 H4) as (n & _ & Hidx & _).
  exists n. exact Hidx.
Defined.

Lemma bench_main_all_hits_witness :
  (Z.of_nat 2 ≤ 2 ^ 26)%Z ∧
  ∃ c,
    bench_main 2
    = Some ((λ j, Some (bench_key (Z.of_nat j))) <$> seq 0 2, c) ∧
    _nr_unevicted c = 0 ∧ _current_time c = (2 * Z.of_nat 2)%Z.
Proof.
  assert (Z.of_nat 2 ≤ 2 ^ 26)%Z as H1 by (vm_compute; discriminate).
  split; [exact H1|]. exact (bench_main_all_hits 2 H1).
Defined.

Lemma hash_key_separates_aligned_witness :
  (0 ≤ 64)%Z ∧ (0 ≤ 128)%Z ∧ (64 `mod` 64 = 0)%Z ∧ (128 `mod` 64 = 0)%Z ∧
  hash_key 64 = (64 `div` 64)%Z.
Proof.
  assert (0 ≤ 64)%Z as H1 by lia. assert (0 ≤ 128)%Z as H2 by lia.
  assert (64 `mod` 64 = 0)%Z as H3 by reflexivity.
  assert (128 `mod` 64 = 0)%Z as H4 by reflexivity.
  split; [exact H1|]. split; [exact H2|]. split; [exact H3|].
  split; [exact H4|].
  destruct (hash_key_separates_aligned 64 128 H1 H2 H3 H4) as [Hdiv _].
  exact Hdiv.
Defined.

Lemma bench_keys_distinct_witness :
  (0 ≤ 1 < 2 ^ 26)%Z ∧ (0 ≤ 2 ^ 25 < 2 ^ 26)%Z ∧
  (bench_key 1 `mod` 64 = 0)%Z.
Proof.
  assert (0 ≤ 1 < 2 ^ 26)%Z as H1 by lia.
  assert (0 ≤ 2 ^ 25 < 2 ^ 26)%Z as H2 by lia.
  split; [exact H1|]. split; [exact H2|].
  destruct (bench_keys_distinct 1 (2 ^ 25) H1 H2) as (_ & Haligned & _).
  exact Haligned.
Defined.

Lemma eviction_check_settles_witness :
  reachable scenario1 ∧
  make_room_for_insert scenario1 = Some (after_room scenario1) ∧
  make_room_for_insert (after_room scenario1) = Some (after_room scenario1).
Proof.
  assert (reachable scenario1) as H1 by reach_scenario1.
  assert (make_room_for_insert scenario1 = Some (after_room scenario1)) as H2
    by (vm_compute; reflexivity).
  split; [exact H1|]. split; [exact H2|].
  destruct (eviction_check_settles scenario1 (after_room scenario1) H1 H2)
    as [_ Hagain].
  exact Hagain.
Defined.

(** * The pool and the eviction check on scenario 1

    In scenario 1 the guard of the eviction check is true: three free
    nodes, no pinned entry, capacity 4. *)

Lemma C9_pool_partition_witness :
  0 < 4 ∧ (Z.of_nat 4 < 2 ^ 53)%Z ∧
  run five_inserts (lru_cache_new 0 0 4) = Some scenario1 ∧
  _max_size scenario1 = 4 ∧
  length (_node_pool scenario1) = 2 * 4 ∧
  length (_free_nodes scenario1) + length (_unevicted_list scenario1)
  + length (_lru scenario1) = 2 * 4.
Proof.
  assert (0 < 4) as H1 by lia.
  assert (Z.of_nat 4 < 2 ^ 53)%Z as H2 by (vm_compute; reflexivity).
  assert (run five_inserts (lru_cache_new 0 0 4) = Some scenario1) as H3
    by (vm_compute; reflexivity).
  split; [exact H1|]. split; [exact H2|]. split; [exact H3|].
  destruct (C9_pool_partition 0 0 4 five_inserts scenario1 H1 H2 H3)
    as (Hmax & Hpool & _ & Hsum & _).
  split; [exact Hmax|]. split; [exact Hpool|]. exact Hsum.
Defined.


Lemma C4_eviction_no_underflow_witness :
  0 < 4 ∧ (Z.of_nat 4 < 2 ^ 53)%Z ∧
  run five_inserts (lru_cache_new 0 0 4) = Some scenario1 ∧
  length (_free_nodes scenario1) + _nr_unevicted scenario1
  < _max_size scenario1 ∧
  _batch_evict_size scenario1 < length (_lru scenario1) ∧
  evict_loop (_batch_evict_size scenario1) (_lru scenario1) scenario1 ≠ None.
Proof.
  assert (0 < 4) as H1 by lia.
  assert (Z.of_nat 4 < 2 ^ 53)%Z as H2 by (vm_compute; reflexivity).
  assert (run five_inserts (lru_cache_new 0 0 4) = Some scenario1) as H3
    by (vm_compute; reflexivity).
  assert (length (_free_nodes scenario1) + _nr_unevicted scenario1
          < _max_size scenario1) as H4 by (vm_compute; lia).
  split; [exact H1|]. split; [exact H2|]. split; [exact H3|].
  split; [exact H4|].
  destruct (C4_eviction_no_underflow 0 0 4 five_inserts scenario1
              H1 H2 H3 H4) as (Hlen & Hloop & _).
  split; [exact Hlen|]. exact Hloop.
Defined.

Lemma C5_eviction_check_witness :
  0 < 4 ∧ (Z.of_nat 4 < 2 ^ 53)%Z ∧
  run five_inserts (lru_cache_new 0 0 4) = Some scenario1 ∧
  length (_free_nodes scenario1) + _nr_unevicted scenario1
  < _max_size scenario1 ∧
  ∃ c' keep ev,
    make_room_for_insert scenario1 = Some c' ∧
    _lru scenario1 = keep ++ ev ∧
    length ev = _batch_evict_size scenario1 ∧
    _lru c' = keep ∧
    _free_nodes c' = ev ++ _free_nodes scenario1 ∧
    _index c' = filter (λ m, m ∉ ev) (_index scenario1) ∧
    _unevicted_list c' = _unevicted_list scenario1.
Proof.
  assert (0 < 4) as H1 by lia.
  assert (Z.of_nat 4 < 2 ^ 53)%Z as H2 by (vm_compute; reflexivity).
  assert (run five_inserts (lru_cache_new 0 0 4) = Some scenario1) as H3
    by (vm_compute; reflexivity).
  assert (length (_free_nodes scenario1) + _nr_unevicted scenario1
          < _max_size scenario1) as H4 by (vm_compute; lia).
  split; [exact H1|]. split; [exact H2|]. split; [exact H3|].
  split; [exact H4|].
  destruct (C5_eviction_check 0 0 4 five_inserts scenario1 H1 H2 H3)
    as (_ & _ & _ & c' & Hroom & _ & Hdue).
  destruct (Hdue H4)
    as (keep & ev & Hlru & Hev & Hkeep & Hfree & Hidx & _ & Hun & _).
  exists c', keep, ev.
  split; [exact Hroom|]. split; [exact Hlru|]. split; [exact Hev|].
  split; [exact Hkeep|]. split; [exact Hfree|]. split; [exact Hidx|].
  exact Hun.
Defined.
